(** * Entity definition class resolution (TrenchBroom, io/EntityDefinitionParser.cpp)

    A shallow embedding of the redundancy filter, the super class selector,
    the cycle-guarded inheritance resolver, the attribute merge policy and the
    definition materializer, followed by the properties proved about them. *)

From Stdlib Require Import ZArith Sorted.
From stdpp Require Import base gmap sets list strings pretty.

(** ** Data model *)

(** Modelled from the spec: the enumeration of io/EntityDefinitionClassInfo.h
    is not part of the sources at hand; the spec lists the kinds in this order
    ("bit per {PointClass, BrushClass, BaseClass}"). *)
Inductive EntityDefinitionClassType : Set :=
| PointClass
| BrushClass
| BaseClass.

#[global] Instance EntityDefinitionClassType_eq_dec : EqDecision EntityDefinitionClassType.
Proof. solve_decision. Defined.

(** [static_cast<int>(type)] *)
Definition typeIndex (t : EntityDefinitionClassType) : Z :=
  match t with
  | PointClass => 0
  | BrushClass => 1
  | BaseClass => 2
  end.

(** The tags of the property definition variants (mdl/PropertyDefinition.h). *)
Inductive PropertyDefinitionType : Set :=
| TargetSourceProperty
| TargetDestinationProperty
| StringProperty
| BooleanProperty
| IntegerProperty
| FloatProperty
| ChoiceProperty
| FlagsProperty
| ColorProperty
| UnknownProperty.

#[global] Instance PropertyDefinitionType_eq_dec : EqDecision PropertyDefinitionType.
Proof. solve_decision. Defined.

(** One option of a flags property: its bit value, its two descriptions and
    whether it is set by default. *)
Record FlagsPropertyOption : Set := mkFlagsPropertyOption {
  flag_value : Z;
  flag_shortDescription : string;
  flag_longDescription : string;
  flag_isDefault : bool
}.

(** Modelled from the spec: the class interface of the property definitions
    that the resolver calls ([key()], [type()], and for flags [option(int)] and
    [addOption(...)]) is not part of the sources at hand. A definition carries
    its key, its type tag, its descriptions and its read-only flag; [pd_options]
    is the option table of a flags definition and is empty for the other
    types. *)
Record PropertyDefinition : Set := mkPropertyDefinition {
  pd_key : string;
  pd_type : PropertyDefinitionType;
  pd_shortDescription : string;
  pd_longDescription : string;
  pd_readOnly : bool;
  pd_options : list FlagsPropertyOption
}.

(** Modelled from the spec: [mdl::EntityPropertyKeys::Spawnflags], the reserved
    "spawnflags" identifier. *)
Definition Spawnflags : string := "spawnflags".

(** [FlagsPropertyDefinition::option(value)]: the first option with that bit
    value, as [Flags::flag] of mdl/PropertyDefinition.cpp finds it. *)
Definition option_of (d : PropertyDefinition) (value : Z) : option FlagsPropertyOption :=
  snd <$> list_find (fun o => flag_value o = value) (pd_options d).

(** Modelled from the spec: [FlagsPropertyDefinition(name)], a new flags
    definition with the given key and no option yet. *)
Definition newFlagsPropertyDefinition (name : string) : PropertyDefinition :=
  mkPropertyDefinition name FlagsProperty "" "" false [].

(** Modelled from the spec: [addOption] appends one option to the table. *)
Definition addOption (d : PropertyDefinition) (value : Z) (shortDescription longDescription : string)
    (isDefault : bool) : PropertyDefinition :=
  mkPropertyDefinition (pd_key d) (pd_type d) (pd_shortDescription d) (pd_longDescription d)
    (pd_readOnly d)
    (pd_options d ++ [mkFlagsPropertyOption value shortDescription longDescription isDefault]).

(** Modelled from the spec: [vm::bbox3d]. Coordinates are doubles in the
    source; the resolver only copies boxes and the one box it builds has
    integral corners, so a coordinate is an integer here. *)
Record bbox3d : Set := mkBBox {
  bbox_min : Z * Z * Z;
  bbox_max : Z * Z * Z
}.

(** [vm::bbox3d(min, max)]: the box with every coordinate between the two
    bounds. *)
Definition bbox3d_of (lo hi : Z) : bbox3d := mkBBox (lo, lo, lo) (hi, hi, hi).

(** [static constexpr auto DefaultSize = vm::bbox3d(-8, +8)] *)
Definition DefaultSize : bbox3d := bbox3d_of (-8) 8.

(** Model and decal definitions are expressions that the resolver never looks
    into: it only appends one to another and falls back on the empty one. *)
Class Expression (E : Type) : Type := {
  append : E → E → E;
  emptyExpression : E
}.

(** Modelled from the spec: the diagnostics sink [ParserStatus] "accepts
    warn(location, message) and error(location, message) calls"; it is the log
    of those calls, oldest first. *)
Inductive Diagnostic (Location : Type) : Type :=
| Warn (location : Location) (message : string)
| Error (location : Location) (message : string).
Arguments Warn {Location} location message.
Arguments Error {Location} location message.

(** [Result<T>]: a value or an error with its message. *)
Inductive Result (T : Type) : Type :=
| Ok (value : T)
| Failure (message : string).
Arguments Ok {T} value.
Arguments Failure {T} message.

(** How a call ends: it returns a value, or an exception that it does not
    catch leaves it. *)
Inductive Completion (X T : Type) : Type :=
| Returns (value : T)
| Escapes (exception : X).
Arguments Returns {X T} value.
Arguments Escapes {X T} exception.

Section Resolver.

(** Colours and source positions are opaque tokens that are carried through. *)
Context {Color FileLocation ModelDefinition DecalDefinition : Type}.
Context `{!Expression ModelDefinition, !Expression DecalDefinition}.

Definition ParserStatus : Type := list (Diagnostic FileLocation).

Definition warn (status : ParserStatus) (location : FileLocation) (message : string) : ParserStatus :=
  status ++ [Warn location message].

Definition error (status : ParserStatus) (location : FileLocation) (message : string) : ParserStatus :=
  status ++ [Error location message].

(** Modelled from the spec: [EntityDefinitionClassInfo]
    (io/EntityDefinitionClassInfo.h is not part of the sources at hand), with
    the fields of the spec's data model. *)
Record EntityDefinitionClassInfo : Type := mkClassInfo {
  ci_type : EntityDefinitionClassType;
  ci_location : FileLocation;
  ci_name : string;
  ci_description : option string;
  ci_color : option Color;
  ci_size : option bbox3d;
  ci_modelDefinition : option ModelDefinition;
  ci_decalDefinition : option DecalDefinition;
  ci_propertyDefinitions : list PropertyDefinition;
  ci_superClasses : list string
}.

(** ** Attribute merge policy *)

(** One round of the loop of [mergeAttributes], for bit position [i]. *)
Definition mergeFlag (classFlags baseclassFlags : PropertyDefinition)
    (result : PropertyDefinition) (i : Z) : PropertyDefinition :=
  let baseclassFlag := option_of baseclassFlags (Z.shiftl 1 i) in
  let classFlag := option_of classFlags (Z.shiftl 1 i) in
  match baseclassFlag, classFlag with
  | Some b, None =>
      addOption result (flag_value b) (flag_shortDescription b) (flag_longDescription b)
        (flag_isDefault b)
  | _, Some c =>
      addOption result (flag_value c) (flag_shortDescription c) (flag_longDescription c)
        (flag_isDefault c)
  | None, None => result
  end.

(** [mergeAttributes]: [None] is the null pointer. The assertion that the two
    keys are equal holds at the one call, which finds the slot by that key. *)
Definition mergeAttributes (inheritingClassAttribute superClassAttribute : PropertyDefinition)
    : option PropertyDefinition :=
  if bool_decide (pd_type superClassAttribute = FlagsProperty)
     && bool_decide (pd_type inheritingClassAttribute = FlagsProperty)
     && bool_decide (pd_key superClassAttribute = Spawnflags)
     && bool_decide (pd_key inheritingClassAttribute = Spawnflags)
  then
    let name := pd_key inheritingClassAttribute in
    let result := newFlagsPropertyDefinition name in
    Some (foldl (mergeFlag inheritingClassAttribute superClassAttribute) result (seqZ 0 24))
  else None.

(** The body of the loop over the super class's property definitions. *)
Definition inheritProperty (propertyDefinitions : list PropertyDefinition)
    (attribute : PropertyDefinition) : list PropertyDefinition :=
  match list_find (fun a => pd_key a = pd_key attribute) propertyDefinitions with
  | None => propertyDefinitions ++ [attribute]
  | Some (it, a) =>
      match mergeAttributes a attribute with
      | Some mergedAttribute => <[it := mergedAttribute]> propertyDefinitions
      | None => propertyDefinitions
      end
  end.

(** The model and the decal definition: taken over when absent, appended to
    when both sides have one. *)
Definition inheritExpression {E : Type} `{!Expression E} (own super : option E) : option E :=
  match own with
  | None => super
  | Some e =>
      match super with
      | Some s => Some (append e s)
      | None => Some e
      end
  end.

Definition inheritOptional {A : Type} (own super : option A) : option A :=
  match own with
  | None => super
  | Some _ => own
  end.

(** [inheritAttributes]: the inheriting class after the merge. *)
Definition inheritAttributes (inheritingClass superClass : EntityDefinitionClassInfo)
    : EntityDefinitionClassInfo :=
  {| ci_type := ci_type inheritingClass;
     ci_location := ci_location inheritingClass;
     ci_name := ci_name inheritingClass;
     ci_description := inheritOptional (ci_description inheritingClass) (ci_description superClass);
     ci_color := inheritOptional (ci_color inheritingClass) (ci_color superClass);
     ci_size := inheritOptional (ci_size inheritingClass) (ci_size superClass);
     ci_modelDefinition :=
       inheritExpression (ci_modelDefinition inheritingClass) (ci_modelDefinition superClass);
     ci_decalDefinition :=
       inheritExpression (ci_decalDefinition inheritingClass) (ci_decalDefinition superClass);
     ci_propertyDefinitions :=
       foldl inheritProperty (ci_propertyDefinitions inheritingClass)
         (ci_propertyDefinitions superClass);
     ci_superClasses := ci_superClasses inheritingClass |}.

(** ** Redundancy filter *)

Definition getMask (type : EntityDefinitionClassType) : Z := Z.shiftl 1 (typeIndex type).

Definition baseClassMask : Z := getMask BaseClass.

(** The state of the loop of [filterRedundantClasses]. *)
Record FilterState : Type := mkFilterState {
  fs_status : ParserStatus;
  fs_result : list EntityDefinitionClassInfo;
  fs_seen : gmap string Z
}.

(** [seen[name]]: a name not yet in the map reads as mask 0. *)
Definition seenMaskOf (seen : gmap string Z) (name : string) : Z := default 0%Z (seen !! name).

(** The body of the loop. Reading [seen[classInfo.name]] enters a name that is
    new with mask 0, so every case leaves the name in the table. *)
Definition filterStep (st : FilterState) (classInfo : EntityDefinitionClassInfo) : FilterState :=
  let seenMask := seenMaskOf (fs_seen st) (ci_name classInfo) in
  let classMask := getMask (ci_type classInfo) in
  if bool_decide (Z.land classMask seenMask ≠ 0%Z) then
    mkFilterState
      (warn (fs_status st) (ci_location classInfo)
         ("Duplicate class info '" +:+ ci_name classInfo +:+ "'"))
      (fs_result st) (<[ci_name classInfo := seenMask]> (fs_seen st))
  else if bool_decide (Z.land seenMask baseClassMask ≠ 0%Z)
          || (bool_decide (seenMask ≠ 0%Z) && bool_decide (Z.land classMask baseClassMask ≠ 0%Z))
  then
    mkFilterState
      (warn (fs_status st) (ci_location classInfo)
         ("Redundant class info '" +:+ ci_name classInfo +:+ "'"))
      (fs_result st) (<[ci_name classInfo := seenMask]> (fs_seen st))
  else
    mkFilterState (fs_status st) (fs_result st ++ [classInfo])
      (<[ci_name classInfo := Z.lor seenMask classMask]> (fs_seen st)).

Definition filterLoop (status : ParserStatus) (classInfos : list EntityDefinitionClassInfo)
    : FilterState :=
  foldl filterStep (mkFilterState status [] ∅) classInfos.

(** [filterRedundantClasses]: the sink after the call and the vector returned. *)
Definition filterRedundantClasses (status : ParserStatus)
    (classInfos : list EntityDefinitionClassInfo)
    : ParserStatus * list EntityDefinitionClassInfo :=
  let st := filterLoop status classInfos in
  (fs_status st, fs_result st).

(** ** Super class selector *)

(** The lookup that [resolveInheritance] hands to the resolver: the classes
    of the filtered vector with the given name, in their order. *)
Definition findClassInfos (filteredClassInfos : list EntityDefinitionClassInfo) (name : string)
    : list EntityDefinitionClassInfo :=
  filter (fun c => ci_name c = name) filteredClassInfos.

Definition findClassInfoWithType (classes : list EntityDefinitionClassInfo)
    (type : EntityDefinitionClassType) : option EntityDefinitionClassInfo :=
  find (fun c => bool_decide (ci_type c = type)) classes.

(** [selectSuperClass]: [None] is the null pointer. *)
Definition selectSuperClass (inheritingClass : EntityDefinitionClassInfo)
    (potentialSuperClasses : list EntityDefinitionClassInfo) : option EntityDefinitionClassInfo :=
  if bool_decide (length potentialSuperClasses = 1) then head potentialSuperClasses
  else if bool_decide (1 < length potentialSuperClasses) then
    match findClassInfoWithType potentialSuperClasses (ci_type inheritingClass) with
    | Some classInfo => Some classInfo
    | None =>
        if bool_decide (ci_type inheritingClass ≠ BaseClass)
        then findClassInfoWithType potentialSuperClasses BaseClass
        else None
    end
  else None.

(** ** Inheritance resolver *)

(** What the recursion passes along by reference: the sink, the inheriting
    class and the names on the current path. *)
Record ResolveState : Type := mkResolveState {
  rs_status : ParserStatus;
  rs_inheritingClass : EntityDefinitionClassInfo;
  rs_visited : gset string
}.

(** A [for] loop whose body may fail to return. *)
Fixpoint forEach {S A : Type} (body : S → A → option S) (st : S) (l : list A) : option S :=
  match l with
  | [] => Some st
  | x :: l' =>
      match body st x with
      | Some st' => forEach body st' l'
      | None => None
      end
  end.

Definition cycleMessage : string := "Entity definition class hierarchy contains a cycle".

(** [inheritFromAndRecurse], with the call back into
    [findSuperClassesAndInheritFrom] as the parameter [recurse]. *)
Definition inheritFromAndRecurse
    (recurse : ResolveState → EntityDefinitionClassInfo → option ResolveState)
    (st : ResolveState) (superClass : EntityDefinitionClassInfo) : option ResolveState :=
  if bool_decide (ci_name superClass ∉ rs_visited st) then
    let st1 :=
      mkResolveState (rs_status st) (inheritAttributes (rs_inheritingClass st) superClass)
        ({[ci_name superClass]} ∪ rs_visited st) in
    match recurse st1 superClass with
    | Some st2 =>
        Some (mkResolveState (rs_status st2) (rs_inheritingClass st2)
                (rs_visited st2 ∖ {[ci_name superClass]}))
    | None => None
    end
  else
    Some (mkResolveState
            (error (rs_status st) (ci_location (rs_inheritingClass st)) cycleMessage)
            (rs_inheritingClass st) (rs_visited st)).

(** The body of the loop over the declared super class names. *)
Definition inheritFromName
    (recurse : ResolveState → EntityDefinitionClassInfo → option ResolveState)
    (filteredClassInfos : list EntityDefinitionClassInfo)
    (classWithSuperClasses : EntityDefinitionClassInfo)
    (st : ResolveState) (nextSuperClassName : string) : option ResolveState :=
  match selectSuperClass (rs_inheritingClass st)
          (findClassInfos filteredClassInfos nextSuperClassName) with
  | Some nextSuperClass => inheritFromAndRecurse recurse st nextSuperClass
  | None =>
      Some (mkResolveState
              (error (rs_status st) (ci_location classWithSuperClasses)
                 ("No matching super class found for '" +:+ nextSuperClassName +:+ "'"))
              (rs_inheritingClass st) (rs_visited st))
  end.

(** [findSuperClassesAndInheritFrom]. The recursion of the source is bounded
    by the names it can put on the path; here it is bounded by [fuel], and
    [None] means that the fuel ran out. *)
Fixpoint findSuperClassesAndInheritFrom (fuel : nat)
    (filteredClassInfos : list EntityDefinitionClassInfo)
    (st : ResolveState) (classWithSuperClasses : EntityDefinitionClassInfo)
    : option ResolveState :=
  match fuel with
  | O => None
  | S fuel' =>
      forEach
        (inheritFromName (findSuperClassesAndInheritFrom fuel' filteredClassInfos)
           filteredClassInfos classWithSuperClasses)
        st (ci_superClasses classWithSuperClasses)
  end.

(** The fuel that [resolveInheritanceOf] starts with: one more than the number
    of classes that can be on a path. *)
Definition resolveFuel (filteredClassInfos : list EntityDefinitionClassInfo) : nat :=
  S (length filteredClassInfos).

(** [resolveInheritance(status, inheritingClass, findClassInfos)], the
    template for one class: the sink after the call and the resolved copy. The
    last case is never taken (see [resolveInheritanceOf_fuel]). *)
Definition resolveInheritanceOf (filteredClassInfos : list EntityDefinitionClassInfo)
    (status : ParserStatus) (inheritingClass : EntityDefinitionClassInfo)
    : ParserStatus * EntityDefinitionClassInfo :=
  match findSuperClassesAndInheritFrom (resolveFuel filteredClassInfos) filteredClassInfos
          (mkResolveState status inheritingClass ∅) inheritingClass with
  | Some st => (rs_status st, rs_inheritingClass st)
  | None => (status, inheritingClass)
  end.

(** The transformation of a vector by a function that also writes to the sink. *)
Fixpoint mapWithStatus {A B : Type} (f : ParserStatus → A → ParserStatus * B)
    (status : ParserStatus) (l : list A) : ParserStatus * list B :=
  match l with
  | [] => (status, [])
  | x :: l' =>
      let '(status1, y) := f status x in
      let '(status2, ys) := mapWithStatus f status1 l' in
      (status2, y :: ys)
  end.

(** [resolveInheritance(status, classInfos)], the exported entry point. *)
Definition resolveInheritance (status : ParserStatus)
    (classInfos : list EntityDefinitionClassInfo)
    : ParserStatus * list EntityDefinitionClassInfo :=
  let '(status1, filteredClassInfos) := filterRedundantClasses status classInfos in
  mapWithStatus (resolveInheritanceOf filteredClassInfos) status1
    (filter (fun c => ci_type c ≠ BaseClass) filteredClassInfos).

(** ** Definition materializer *)

(** Modelled from the spec: the entity definitions of mdl/EntityDefinition.h
    are not part of the sources at hand; a definition holds what its
    constructor is given. *)
Inductive EntityDefinition : Type :=
| PointEntityDefinition (name : string) (color : Color) (size : bbox3d) (description : string)
    (propertyDefinitions : list PropertyDefinition) (modelDefinition : ModelDefinition)
    (decalDefinition : DecalDefinition)
| BrushEntityDefinition (name : string) (color : Color) (description : string)
    (propertyDefinitions : list PropertyDefinition).

(** [createDefinition]: [None] is the null pointer. *)
Definition createDefinition (classInfo : EntityDefinitionClassInfo) (defaultEntityColor : Color)
    : option EntityDefinition :=
  let name := ci_name classInfo in
  let color := default defaultEntityColor (ci_color classInfo) in
  let size := default DefaultSize (ci_size classInfo) in
  let description := default "" (ci_description classInfo) in
  let propertyDefinitions := ci_propertyDefinitions classInfo in
  let modelDefinition := default emptyExpression (ci_modelDefinition classInfo) in
  let decalDefinition := default emptyExpression (ci_decalDefinition classInfo) in
  match ci_type classInfo with
  | PointClass =>
      Some (PointEntityDefinition name color size description propertyDefinitions
              modelDefinition decalDefinition)
  | BrushClass => Some (BrushEntityDefinition name color description propertyDefinitions)
  | BaseClass => None
  end.

(** [createDefinitions]: the filtered vector is handed to [resolveInheritance],
    which filters it once more. *)
Definition createDefinitions (status : ParserStatus)
    (classInfos : list EntityDefinitionClassInfo) (defaultEntityColor : Color)
    : ParserStatus * list EntityDefinition :=
  let '(status1, filteredClassInfos) := filterRedundantClasses status classInfos in
  let '(status2, resolvedClasses) := resolveInheritance status1 filteredClassInfos in
  (status2,
   foldl (fun result classInfo =>
            match createDefinition classInfo defaultEntityColor with
            | Some definition => result ++ [definition]
            | None => result
            end) [] resolvedClasses).

(** ** Entry point *)

(** An exception of a type that does not derive from [Exception] is an opaque
    token. *)
Context {OtherException : Type}.

(** What [parseClassInfos] does: it writes to the sink and then returns the
    class infos, or throws an [Exception] with a message, or throws an
    exception of another type. *)
Inductive ParseOutcome : Type :=
| Parsed (classInfos : list EntityDefinitionClassInfo)
| Thrown (what : string)
| ThrownOther (exception : OtherException).

(** [EntityDefinitionParser::parseDefinitions]; the parser of the concrete
    format is the parameter [parseClassInfos]. The handler is for
    [const Exception&] only: any other exception leaves the function. *)
Definition parseDefinitions (parseClassInfos : ParserStatus → ParserStatus * ParseOutcome)
    (m_defaultEntityColor : Color) (status : ParserStatus)
    : ParserStatus * Completion OtherException (Result (list EntityDefinition)) :=
  match parseClassInfos status with
  | (status1, Parsed classInfos) =>
      let '(status2, definitions) := createDefinitions status1 classInfos m_defaultEntityColor in
      (status2, Returns (Ok definitions))
  | (status1, Thrown what) => (status1, Returns (Failure what))
  | (status1, ThrownOther exception) => (status1, Escapes exception)
  end.

(** ** The redundancy filter as the specification words it

    The filter described on the records accepted so far, without the table of
    kind masks. *)

(** A record with this name and this type was already accepted. *)
Definition alreadyAccepted (accepted : list EntityDefinitionClassInfo) (name : string)
    (type : EntityDefinitionClassType) : bool :=
  existsb (fun a => bool_decide (ci_name a = name) && bool_decide (ci_type a = type)) accepted.

(** Any record with this name was already accepted. *)
Definition nameAccepted (accepted : list EntityDefinitionClassInfo) (name : string) : bool :=
  existsb (fun a => bool_decide (ci_name a = name)) accepted.

Definition filterSpecStep (st : ParserStatus * list EntityDefinitionClassInfo)
    (classInfo : EntityDefinitionClassInfo) : ParserStatus * list EntityDefinitionClassInfo :=
  if alreadyAccepted st.2 (ci_name classInfo) (ci_type classInfo) then
    (warn st.1 (ci_location classInfo) ("Duplicate class info '" +:+ ci_name classInfo +:+ "'"),
     st.2)
  else if alreadyAccepted st.2 (ci_name classInfo) BaseClass
          || (bool_decide (ci_type classInfo = BaseClass) && nameAccepted st.2 (ci_name classInfo))
  then
    (warn st.1 (ci_location classInfo) ("Redundant class info '" +:+ ci_name classInfo +:+ "'"),
     st.2)
  else (st.1, st.2 ++ [classInfo]).

Definition filterRedundantClassesSpec (status : ParserStatus)
    (classInfos : list EntityDefinitionClassInfo)
    : ParserStatus * list EntityDefinitionClassInfo :=
  foldl filterSpecStep (status, []) classInfos.

(** Two records can both survive the filter: if they share their name, they
    are of different types and neither is a base class. *)
Definition compatible (a b : EntityDefinitionClassInfo) : Prop :=
  ci_name a = ci_name b →
  ci_type a ≠ ci_type b ∧ ci_type a ≠ BaseClass ∧ ci_type b ≠ BaseClass.

(** A vector in which every two records are compatible. *)
Definition Clean (l : list EntityDefinitionClassInfo) : Prop := ForallOrdPairs compatible l.

(** The mask that the table holds for a name, from the three kinds accepted. *)
Definition kindBits (point brush base : bool) : Z :=
  Z.lor (Z.lor (if point then getMask PointClass else 0) (if brush then getMask BrushClass else 0))
    (if base then getMask BaseClass else 0).

Definition maskOf (accepted : list EntityDefinitionClassInfo) (name : string) : Z :=
  kindBits (alreadyAccepted accepted name PointClass) (alreadyAccepted accepted name BrushClass)
    (alreadyAccepted accepted name BaseClass).

(** The table of masks agrees with the records accepted so far. *)
Definition SeenInv (seen : gmap string Z) (accepted : list EntityDefinitionClassInfo) : Prop :=
  ∀ name, seenMaskOf seen name = maskOf accepted name.

(** The loop state of the filter and the state of its description agree. *)
Definition FilterRel (st : FilterState) (sp : ParserStatus * list EntityDefinitionClassInfo)
    : Prop :=
  fs_status st = sp.1 ∧ fs_result st = sp.2 ∧ SeenInv (fs_seen st) sp.2.

(** ** What the claims speak of *)

(** A record with its list of super classes cleared. *)
Definition clearSuperClasses (c : EntityDefinitionClassInfo) : EntityDefinitionClassInfo :=
  {| ci_type := ci_type c;
     ci_location := ci_location c;
     ci_name := ci_name c;
     ci_description := ci_description c;
     ci_color := ci_color c;
     ci_size := ci_size c;
     ci_modelDefinition := ci_modelDefinition c;
     ci_decalDefinition := ci_decalDefinition c;
     ci_propertyDefinitions := ci_propertyDefinitions c;
     ci_superClasses := [] |}.

(** A record with another size, model definition and decal definition. *)
Definition withGeometry (c : EntityDefinitionClassInfo) (size : option bbox3d)
    (modelDefinition : option ModelDefinition) (decalDefinition : option DecalDefinition)
    : EntityDefinitionClassInfo :=
  {| ci_type := ci_type c;
     ci_location := ci_location c;
     ci_name := ci_name c;
     ci_description := ci_description c;
     ci_color := ci_color c;
     ci_size := size;
     ci_modelDefinition := modelDefinition;
     ci_decalDefinition := decalDefinition;
     ci_propertyDefinitions := ci_propertyDefinitions c;
     ci_superClasses := ci_superClasses c |}.

(** The name of a definition and the kind of class it was made from. *)
Definition definitionName (d : EntityDefinition) : string :=
  match d with
  | PointEntityDefinition name _ _ _ _ _ _ => name
  | BrushEntityDefinition name _ _ _ => name
  end.

Definition definitionType (d : EntityDefinition) : EntityDefinitionClassType :=
  match d with
  | PointEntityDefinition _ _ _ _ _ _ _ => PointClass
  | BrushEntityDefinition _ _ _ _ => BrushClass
  end.

(** The color, the box and the description that a definition holds; a brush
    definition holds no box. *)
Definition definitionColor (d : EntityDefinition) : Color :=
  match d with
  | PointEntityDefinition _ color _ _ _ _ _ => color
  | BrushEntityDefinition _ color _ _ => color
  end.

Definition definitionSize (d : EntityDefinition) : option bbox3d :=
  match d with
  | PointEntityDefinition _ _ size _ _ _ _ => Some size
  | BrushEntityDefinition _ _ _ _ => None
  end.

Definition definitionDescription (d : EntityDefinition) : string :=
  match d with
  | PointEntityDefinition _ _ _ description _ _ _ => description
  | BrushEntityDefinition _ _ description _ => description
  end.

(** The walk changes neither the name, the type, the position nor the super
    classes of the inheriting class. *)
Definition sameIdentity (c c' : EntityDefinitionClassInfo) : Prop :=
  ci_name c' = ci_name c ∧ ci_type c' = ci_type c ∧ ci_location c' = ci_location c
  ∧ ci_superClasses c' = ci_superClasses c.

(** The sink only grows. *)
Definition grows (status status' : ParserStatus) : Prop := ∃ more, status' = status ++ more.

(** ** The merge of property definitions as the specification words it *)

(** The option for bit position [i] after a merge: the one of the inheriting
    class if it defines one, else the one of the super class. *)
Definition bitOption (inheriting super : PropertyDefinition) (i : Z) : option FlagsPropertyOption :=
  match option_of inheriting (Z.shiftl 1 i) with
  | Some o => Some o
  | None => option_of super (Z.shiftl 1 i)
  end.

(** The flags definition assembled bit by bit over the 24 positions. *)
Definition perBitMerge (inheriting super : PropertyDefinition) : PropertyDefinition :=
  mkPropertyDefinition (pd_key inheriting) FlagsProperty "" "" false
    (omap (bitOption inheriting super) (seqZ 0 24)).

(** Both sides are flags definitions with the reserved key. *)
Definition bothSpawnflags (inheriting super : PropertyDefinition) : Prop :=
  pd_type super = FlagsProperty ∧ pd_type inheriting = FlagsProperty
  ∧ pd_key super = Spawnflags ∧ pd_key inheriting = Spawnflags.

#[global] Instance bothSpawnflags_dec inheriting super : Decision (bothSpawnflags inheriting super).
Proof. unfold bothSpawnflags. apply _. Defined.

(** What becomes of one slot of the inheriting class when a super class with
    the given properties is merged. *)
Definition slotAfter (superProperties : list PropertyDefinition) (own : PropertyDefinition)
    : PropertyDefinition :=
  match list_find (fun s => pd_key s = pd_key own) superProperties with
  | Some (_, s) => if decide (bothSpawnflags own s) then perBitMerge own s else own
  | None => own
  end.

(** The keys of a property list. *)
Definition keysOf (properties : list PropertyDefinition) : list string := pd_key <$> properties.

(** ** Properties of the redundancy filter *)

Lemma alreadyAccepted_app accepted c name type :
  alreadyAccepted (accepted ++ [c]) name type =
  alreadyAccepted accepted name type
  || (bool_decide (ci_name c = name) && bool_decide (ci_type c = type)).
Proof.
  unfold alreadyAccepted. rewrite existsb_app. simpl. by rewrite orb_false_r.
Qed.

Lemma nameAccepted_kinds accepted name :
  nameAccepted accepted name =
  alreadyAccepted accepted name PointClass || alreadyAccepted accepted name BrushClass
  || alreadyAccepted accepted name BaseClass.
Proof.
  induction accepted as [|a accepted IH]; [done|].
  cbn [nameAccepted alreadyAccepted existsb] in *.
  fold (nameAccepted accepted name). rewrite IH. fold (alreadyAccepted accepted name PointClass).
  fold (alreadyAccepted accepted name BrushClass). fold (alreadyAccepted accepted name BaseClass).
  destruct (bool_decide (ci_name a = name)); [|done].
  destruct (ci_type a); cbn;
    destruct (alreadyAccepted accepted name PointClass),
      (alreadyAccepted accepted name BrushClass),
      (alreadyAccepted accepted name BaseClass); done.
Qed.

Lemma kindBits_test (t : EntityDefinitionClassType) (p b s : bool) :
  bool_decide (Z.land (getMask t) (kindBits p b s) ≠ 0%Z) =
  match t with PointClass => p | BrushClass => b | BaseClass => s end.
Proof. by destruct t, p, b, s. Qed.

Lemma kindBits_base (p b s : bool) :
  bool_decide (Z.land (kindBits p b s) baseClassMask ≠ 0%Z) = s.
Proof. by destruct p, b, s. Qed.

Lemma kindBits_nonzero (p b s : bool) :
  bool_decide (kindBits p b s ≠ 0%Z) = p || b || s.
Proof. by destruct p, b, s. Qed.

Lemma getMask_base (t : EntityDefinitionClassType) :
  bool_decide (Z.land (getMask t) baseClassMask ≠ 0%Z) = bool_decide (t = BaseClass).
Proof. by destruct t. Qed.

Lemma kindBits_lor (t : EntityDefinitionClassType) (p b s : bool) :
  Z.lor (kindBits p b s) (getMask t) =
  kindBits (p || bool_decide (t = PointClass)) (b || bool_decide (t = BrushClass))
    (s || bool_decide (t = BaseClass)).
Proof. by destruct t, p, b, s. Qed.

Lemma maskOf_test accepted name t :
  bool_decide (Z.land (getMask t) (maskOf accepted name) ≠ 0%Z) = alreadyAccepted accepted name t.
Proof. unfold maskOf. rewrite kindBits_test. by destruct t. Qed.

Lemma maskOf_base accepted name :
  bool_decide (Z.land (maskOf accepted name) baseClassMask ≠ 0%Z) =
  alreadyAccepted accepted name BaseClass.
Proof. unfold maskOf. by rewrite kindBits_base. Qed.

Lemma maskOf_nonzero accepted name :
  bool_decide (maskOf accepted name ≠ 0%Z) = nameAccepted accepted name.
Proof. unfold maskOf. by rewrite kindBits_nonzero, nameAccepted_kinds. Qed.

Lemma SeenInv_empty : SeenInv ∅ [].
Proof. intros name. unfold seenMaskOf. by rewrite lookup_empty. Qed.

Lemma SeenInv_touch seen accepted name :
  SeenInv seen accepted → SeenInv (<[name := seenMaskOf seen name]> seen) accepted.
Proof.
  intros Hinv n. rewrite <- (Hinv n). unfold seenMaskOf at 1.
  destruct (decide (name = n)) as [->|Hne].
  - by rewrite lookup_insert_eq.
  - by rewrite lookup_insert_ne.
Qed.

Lemma SeenInv_accept seen accepted c :
  SeenInv seen accepted →
  SeenInv (<[ci_name c := Z.lor (seenMaskOf seen (ci_name c)) (getMask (ci_type c))]> seen)
    (accepted ++ [c]).
Proof.
  intros Hinv n. unfold seenMaskOf at 1.
  destruct (decide (ci_name c = n)) as [<-|Hne].
  - rewrite lookup_insert_eq. cbn. rewrite Hinv. unfold maskOf. rewrite kindBits_lor.
    rewrite !alreadyAccepted_app.
    by rewrite (bool_decide_eq_true_2 (ci_name c = ci_name c)), !andb_true_l by done.
  - rewrite lookup_insert_ne by done. fold (seenMaskOf seen n). rewrite Hinv. unfold maskOf.
    rewrite !alreadyAccepted_app.
    by rewrite (bool_decide_eq_false_2 (ci_name c = n)), !andb_false_l, !orb_false_r by done.
Qed.

Lemma filterStep_spec st sp c :
  FilterRel st sp → FilterRel (filterStep st c) (filterSpecStep sp c).
Proof.
  intros (Hs & Hr & Hinv). unfold filterStep, filterSpecStep.
  rewrite (Hinv (ci_name c)), maskOf_test.
  destruct (alreadyAccepted sp.2 (ci_name c) (ci_type c)) eqn:Hdup.
  { split_and!; cbn; [by rewrite Hs|done|]. rewrite <- (Hinv (ci_name c)).
    by apply SeenInv_touch. }
  rewrite maskOf_base, maskOf_nonzero, getMask_base.
  rewrite (andb_comm (nameAccepted sp.2 (ci_name c))).
  destruct (alreadyAccepted sp.2 (ci_name c) BaseClass
            || bool_decide (ci_type c = BaseClass) && nameAccepted sp.2 (ci_name c)).
  { split_and!; cbn; [by rewrite Hs|done|]. rewrite <- (Hinv (ci_name c)).
    by apply SeenInv_touch. }
  split_and!; cbn; [done|by rewrite Hr|]. rewrite <- (Hinv (ci_name c)).
  by apply SeenInv_accept.
Qed.

Lemma filterLoop_spec classInfos st sp :
  FilterRel st sp → FilterRel (foldl filterStep st classInfos) (foldl filterSpecStep sp classInfos).
Proof.
  revert st sp. induction classInfos as [|c classInfos IH]; intros st sp Hrel; [done|].
  cbn. apply IH. by apply filterStep_spec.
Qed.

Lemma filterRedundantClasses_spec status classInfos :
  filterRedundantClasses status classInfos = filterRedundantClassesSpec status classInfos.
Proof.
  unfold filterRedundantClasses, filterRedundantClassesSpec, filterLoop.
  destruct (filterLoop_spec classInfos (mkFilterState status [] ∅) (status, []))
    as (Hs & Hr & _).
  { split_and!; [done|done|apply SeenInv_empty]. }
  rewrite Hs, Hr. by destruct (foldl filterSpecStep (status, []) classInfos).
Qed.

Lemma alreadyAccepted_false accepted name type :
  alreadyAccepted accepted name type = false
  ↔ Forall (fun a => ¬ (ci_name a = name ∧ ci_type a = type)) accepted.
Proof.
  induction accepted as [|a accepted IH]; [by split; [constructor|]|].
  rewrite Forall_cons, <- IH. cbn [alreadyAccepted existsb].
  fold (alreadyAccepted accepted name type).
  rewrite orb_false_iff, andb_false_iff, !bool_decide_eq_false.
  destruct (decide (ci_name a = name)); tauto.
Qed.

Lemma nameAccepted_false accepted name :
  nameAccepted accepted name = false ↔ Forall (fun a => ci_name a ≠ name) accepted.
Proof.
  induction accepted as [|a accepted IH]; [by split; [constructor|]|].
  rewrite Forall_cons, <- IH. cbn [nameAccepted existsb].
  fold (nameAccepted accepted name).
  by rewrite orb_false_iff, bool_decide_eq_false.
Qed.

(** The third case of the filter is taken exactly when the record is
    compatible with every record accepted so far. *)
Lemma accepted_compatible accepted c :
  alreadyAccepted accepted (ci_name c) (ci_type c) = false ∧
  alreadyAccepted accepted (ci_name c) BaseClass
  || (bool_decide (ci_type c = BaseClass) && nameAccepted accepted (ci_name c)) = false
  ↔ Forall (fun a => compatible a c) accepted.
Proof.
  rewrite orb_false_iff, andb_false_iff, bool_decide_eq_false.
  rewrite !alreadyAccepted_false, nameAccepted_false, !Forall_forall.
  unfold compatible. split.
  - intros (Hdup & Hbase & Hany) a Ha Hname. split_and!.
    + intros Htype. by apply (Hdup a Ha).
    + intros Htype. by apply (Hbase a Ha).
    + destruct Hany as [Hany|Hany]; [done|]. by specialize (Hany a Ha).
  - intros Hc. split_and!.
    + intros a Ha [Hname Htype]. by destruct (Hc a Ha Hname) as (? & _ & _).
    + intros a Ha [Hname Htype]. by destruct (Hc a Ha Hname) as (_ & ? & _).
    + destruct (decide (ci_type c = BaseClass)) as [Hb|Hb]; [right|by left].
      intros a Ha Hname. by destruct (Hc a Ha Hname) as (_ & _ & ?).
Qed.

Lemma Clean_snoc l c : Clean (l ++ [c]) ↔ Clean l ∧ Forall (fun a => compatible a c) l.
Proof.
  unfold Clean. induction l as [|a l IH]; cbn.
  { split; [intros _; split; constructor|intros _; constructor; constructor]. }
  split.
  - intros H. inversion H as [|? ? Ha Hl]; subst. apply IH in Hl as [Hl Hc].
    apply Forall_app in Ha as [Ha Hac]. split; [by constructor|].
    constructor; [by inversion Hac|done].
  - intros [H Hc]. inversion H as [|? ? Ha Hl]; subst. inversion Hc; subst.
    constructor; [apply Forall_app; split; [done|by constructor]|]. apply IH. done.
Qed.

Lemma filterSpec_Clean classInfos st :
  Clean st.2 → Clean (foldl filterSpecStep st classInfos).2.
Proof.
  revert st. induction classInfos as [|c classInfos IH]; intros st Hclean; [done|].
  cbn. apply IH. unfold filterSpecStep.
  destruct (alreadyAccepted st.2 (ci_name c) (ci_type c)) eqn:Hdup; [done|].
  destruct (alreadyAccepted st.2 (ci_name c) BaseClass
            || bool_decide (ci_type c = BaseClass) && nameAccepted st.2 (ci_name c)) eqn:Hred;
    [done|].
  cbn. apply Clean_snoc. split; [done|]. by apply accepted_compatible.
Qed.

(** A clean vector passes the filter whole and without a warning. *)
Lemma filterSpec_Clean_id classInfos status accepted :
  Clean (accepted ++ classInfos) →
  foldl filterSpecStep (status, accepted) classInfos = (status, accepted ++ classInfos).
Proof.
  revert accepted. induction classInfos as [|c classInfos IH]; intros accepted Hclean.
  { by rewrite app_nil_r. }
  cbn. replace (accepted ++ c :: classInfos) with ((accepted ++ [c]) ++ classInfos) in *
    by (by rewrite <- app_assoc).
  assert (Clean (accepted ++ [c])) as Hc.
  { clear IH. revert Hclean. generalize (accepted ++ [c]). unfold Clean.
    intros l. induction l as [|a l IHl]; cbn; [constructor|].
    intros H. inversion H as [|? ? Ha Hl]; subst. apply Forall_app in Ha as [Ha _].
    constructor; [done|by apply IHl]. }
  apply Clean_snoc in Hc as [_ Hc]. apply accepted_compatible in Hc as [Hdup Hred].
  unfold filterSpecStep at 2. cbn [fst snd]. rewrite Hdup, Hred. by apply IH.
Qed.

Lemma Clean_filter (P : EntityDefinitionClassInfo → Prop) `{!∀ c, Decision (P c)} l :
  Clean l → Clean (filter P l).
Proof.
  unfold Clean. induction 1 as [|a l Ha Hl IH]; [constructor|].
  rewrite filter_cons. destruct (decide (P a)); [|done].
  constructor; [|done]. rewrite Forall_forall in *.
  intros x [_ Hx]%list_elem_of_filter. by apply Ha.
Qed.

(** Being clean depends on the names and the types only. *)
Lemma Clean_same_keys l l' :
  Forall2 (fun a b => ci_name a = ci_name b ∧ ci_type a = ci_type b) l l' → Clean l → Clean l'.
Proof.
  unfold Clean. induction 1 as [|a b l l' [Hn Ht] Hll IH]; [constructor|].
  intros H. inversion H as [|? ? Ha Hl]; subst. constructor; [|by apply IH].
  clear IH Hl H. induction Hll as [|x y l l' [Hxn Hxt] Hll IH]; [constructor|].
  inversion Ha; subst. constructor; [|by apply IH].
  unfold compatible in *. rewrite <- Hn, <- Ht, <- Hxn, <- Hxt. done.
Qed.

(** What the filter returns is clean. *)
Lemma filterRedundantClasses_Clean status classInfos :
  Clean (filterRedundantClasses status classInfos).2.
Proof.
  rewrite filterRedundantClasses_spec. apply filterSpec_Clean. constructor.
Qed.

(** Filtering a clean vector returns it and reports nothing. *)
Lemma filterRedundantClasses_Clean_id status classInfos :
  Clean classInfos → filterRedundantClasses status classInfos = (status, classInfos).
Proof.
  intros Hclean. rewrite filterRedundantClasses_spec.
  unfold filterRedundantClassesSpec. by rewrite filterSpec_Clean_id.
Qed.

(** The records accepted are a subsequence of the input, and the sink only
    grows. *)
Lemma filterSpec_sublist classInfos status accepted :
  ∃ kept warnings,
    foldl filterSpecStep (status, accepted) classInfos = (status ++ warnings, accepted ++ kept)
    ∧ sublist kept classInfos.
Proof.
  revert status accepted. induction classInfos as [|c classInfos IH]; intros status accepted.
  { exists [], []. by rewrite !app_nil_r. }
  cbn. unfold filterSpecStep at 2. cbn [fst snd].
  destruct (alreadyAccepted accepted (ci_name c) (ci_type c)).
  { destruct (IH (warn status (ci_location c) ("Duplicate class info '" +:+ ci_name c +:+ "'"))
                accepted) as (kept & warnings & -> & Hsub).
    eexists kept, _. unfold warn. rewrite <- app_assoc. split; [done|by constructor]. }
  destruct (alreadyAccepted accepted (ci_name c) BaseClass
            || bool_decide (ci_type c = BaseClass) && nameAccepted accepted (ci_name c)).
  { destruct (IH (warn status (ci_location c) ("Redundant class info '" +:+ ci_name c +:+ "'"))
                accepted) as (kept & warnings & -> & Hsub).
    eexists kept, _. unfold warn. rewrite <- app_assoc. split; [done|by constructor]. }
  destruct (IH status (accepted ++ [c])) as (kept & warnings & -> & Hsub).
  exists (c :: kept), warnings. rewrite <- app_assoc. split; [done|by constructor].
Qed.

(** ** Properties of the attribute merge *)

Lemma foldl_mergeFlag inheriting super result positions :
  foldl (mergeFlag inheriting super) result positions
  = mkPropertyDefinition (pd_key result) (pd_type result) (pd_shortDescription result)
      (pd_longDescription result) (pd_readOnly result)
      (pd_options result ++ omap (bitOption inheriting super) positions).
Proof.
  revert result. induction positions as [|i positions IH]; intros result; cbn.
  { rewrite app_nil_r. by destruct result. }
  rewrite IH. unfold mergeFlag, bitOption.
  destruct (option_of inheriting (Z.shiftl 1 i)) as [[]|],
    (option_of super (Z.shiftl 1 i)) as [[]|]; cbn; by rewrite <- ?app_assoc.
Qed.

Lemma mergeAttributes_spec inheriting super :
  mergeAttributes inheriting super
  = if decide (bothSpawnflags inheriting super) then Some (perBitMerge inheriting super)
    else None.
Proof.
  unfold mergeAttributes, bothSpawnflags.
  destruct (decide _) as [(H1 & H2 & H3 & H4)|Hn].
  - rewrite !bool_decide_eq_true_2 by done. cbn [andb]. by rewrite foldl_mergeFlag.
  - repeat case_bool_decide; cbn [andb]; try done. by destruct Hn.
Qed.

Lemma merged_slot_key a s : pd_key (default a (mergeAttributes a s)) = pd_key a.
Proof. rewrite mergeAttributes_spec. by case_decide. Qed.

Lemma inheritProperty_cons a l s :
  inheritProperty (a :: l) s
  = if decide (pd_key a = pd_key s) then default a (mergeAttributes a s) :: l
    else a :: inheritProperty l s.
Proof.
  unfold inheritProperty. cbn [list_find]. case_decide.
  - by destruct (mergeAttributes a s).
  - destruct (list_find _ l) as [[i x]|]; cbn; [|done]. by destruct (mergeAttributes x s).
Qed.

Lemma keysOf_cons a l : keysOf (a :: l) = pd_key a :: keysOf l.
Proof. done. Qed.

Lemma inheritProperty_keys l s :
  keysOf (inheritProperty l s)
  = if decide (pd_key s ∈ keysOf l) then keysOf l else keysOf l ++ [pd_key s].
Proof.
  induction l as [|a l IH].
  { cbn. by rewrite decide_False by apply not_elem_of_nil. }
  rewrite inheritProperty_cons. destruct (decide (pd_key a = pd_key s)) as [Hk|Hk].
  - rewrite !keysOf_cons, merged_slot_key, decide_True; [done|]. rewrite Hk. by left.
  - rewrite !keysOf_cons, IH.
    destruct (decide (pd_key s ∈ keysOf l)) as [Hin|Hin].
    + rewrite decide_True; [done|by right].
    + rewrite decide_False; [done|]. intros [?|?]%elem_of_cons; [congruence|done].
Qed.

Lemma slotAfter_cons_ne s superProperties own :
  pd_key s ≠ pd_key own → slotAfter (s :: superProperties) own = slotAfter superProperties own.
Proof.
  intros Hne. unfold slotAfter. cbn [list_find]. rewrite decide_False by done.
  by destruct (list_find _ superProperties) as [[i x]|].
Qed.

Lemma slotAfter_cons_eq s superProperties own :
  pd_key s = pd_key own →
  slotAfter (s :: superProperties) own = default own (mergeAttributes own s).
Proof.
  intros Heq. unfold slotAfter. cbn [list_find]. rewrite decide_True by done.
  rewrite mergeAttributes_spec. by case_decide.
Qed.

Lemma slotAfter_absent superProperties own :
  pd_key own ∉ keysOf superProperties → slotAfter superProperties own = own.
Proof.
  induction superProperties as [|s l IH]; [done|]. rewrite keysOf_cons. intros Hnin.
  rewrite slotAfter_cons_ne.
  - apply IH. intros ?. apply Hnin. by right.
  - intros Heq. apply Hnin. rewrite Heq. by left.
Qed.

Lemma slotAfter_cons_others s superProperties l :
  pd_key s ∉ keysOf l →
  slotAfter (s :: superProperties) <$> l = slotAfter superProperties <$> l.
Proof.
  induction l as [|a l IH]; [done|]. rewrite keysOf_cons, !fmap_cons. intros Hnin.
  rewrite slotAfter_cons_ne, IH; [done| |].
  - intros ?. apply Hnin. by right.
  - intros Heq. apply Hnin. rewrite Heq. by left.
Qed.

Lemma inheritProperty_slots s superProperties l :
  pd_key s ∉ keysOf superProperties →
  NoDup (keysOf l) →
  slotAfter superProperties <$> inheritProperty l s
  = (slotAfter (s :: superProperties) <$> l)
    ++ (if decide (pd_key s ∈ keysOf l) then [] else [s]).
Proof.
  intros Hs. induction l as [|a l IH]; intros Hnd.
  { cbn. rewrite decide_False by apply not_elem_of_nil. by rewrite slotAfter_absent. }
  rewrite keysOf_cons in Hnd. apply NoDup_cons in Hnd as [Ha Hnd].
  rewrite inheritProperty_cons, keysOf_cons. destruct (decide (pd_key a = pd_key s)) as [Hk|Hk].
  - rewrite decide_True by (rewrite Hk; by left). rewrite app_nil_r, !fmap_cons.
    rewrite slotAfter_absent by (by rewrite merged_slot_key, Hk).
    rewrite slotAfter_cons_eq by done. f_equal. symmetry. apply slotAfter_cons_others.
    by rewrite <- Hk.
  - rewrite !fmap_cons, IH by done. rewrite slotAfter_cons_ne by done.
    destruct (decide (pd_key s ∈ keysOf l)) as [Hin|Hin].
    + rewrite decide_True; [done|by right].
    + rewrite decide_False; [done|]. intros [?|?]%elem_of_cons; [congruence|done].
Qed.

Lemma filter_ext_elem {A : Type} (P Q : A → Prop) `{!∀ x, Decision (P x), !∀ x, Decision (Q x)}
    (l : list A) :
  (∀ x, x ∈ l → P x ↔ Q x) → filter P l = filter Q l.
Proof.
  induction l as [|x l IH]; intros Hext; [done|].
  rewrite !filter_cons. rewrite IH by (intros y Hy; apply Hext; by right).
  destruct (decide (P x)) as [HP|HP], (decide (Q x)) as [HQ|HQ]; try done.
  - destruct HQ. apply Hext; [by left|done].
  - destruct HP. apply Hext; [by left|done].
Qed.

Lemma inheritProperty_absent s superProperties l :
  pd_key s ∉ keysOf superProperties →
  filter (fun x => pd_key x ∉ keysOf (inheritProperty l s)) superProperties
  = filter (fun x => pd_key x ∉ keysOf l) superProperties.
Proof.
  intros Hs. apply filter_ext_elem. intros x Hx. rewrite inheritProperty_keys.
  case_decide; [done|]. rewrite not_elem_of_app, not_elem_of_cons.
  split; [by intros [? _]|]. intros Hnin. split_and!; [done| |apply not_elem_of_nil].
  intros Heq. apply Hs. rewrite <- Heq. unfold keysOf. apply list_elem_of_fmap. by exists x.
Qed.

Lemma slotAfter_nil (l : list PropertyDefinition) : slotAfter [] <$> l = l.
Proof. induction l as [|a l IH]; [done|]. rewrite fmap_cons. by rewrite IH. Qed.

(** The loop over the properties of the super class, in one equation. *)
Lemma foldl_inheritProperty superProperties :
  ∀ l,
    NoDup (keysOf l) → NoDup (keysOf superProperties) →
    foldl inheritProperty l superProperties
    = (slotAfter superProperties <$> l)
      ++ filter (fun s => pd_key s ∉ keysOf l) superProperties.
Proof.
  induction superProperties as [|s superProperties IH]; intros l Hl Hs.
  { cbn. by rewrite slotAfter_nil, app_nil_r. }
  rewrite keysOf_cons in Hs. apply NoDup_cons in Hs as [Hs Hnd]. cbn [foldl].
  rewrite IH; [|rewrite inheritProperty_keys|done].
  - rewrite inheritProperty_slots, inheritProperty_absent by done.
    rewrite filter_cons, <- app_assoc. f_equal.
    destruct (decide (pd_key s ∈ keysOf l)) as [Hin|Hin].
    + by rewrite decide_False by auto.
    + by rewrite decide_True by done.
  - case_decide as Hin; [done|]. apply NoDup_app. split_and!; [done| |apply NoDup_singleton].
    intros x Hx ->%list_elem_of_singleton. done.
Qed.

(** The keys of the inheriting class stay unique through a merge. *)
Lemma foldl_inheritProperty_NoDup superProperties :
  ∀ l, NoDup (keysOf l) → NoDup (keysOf (foldl inheritProperty l superProperties)).
Proof.
  induction superProperties as [|s superProperties IH]; intros l Hl; [done|].
  cbn [foldl]. apply IH. rewrite inheritProperty_keys.
  destruct (decide (pd_key s ∈ keysOf l)) as [Hin|Hin]; [done|].
  apply NoDup_app. split_and!; [done| |apply NoDup_singleton].
  intros x Hx ->%list_elem_of_singleton. done.
Qed.

Lemma slotAfter_found superProperties own s :
  NoDup (keysOf superProperties) → s ∈ superProperties → pd_key s = pd_key own →
  slotAfter superProperties own
  = if decide (bothSpawnflags own s) then perBitMerge own s else own.
Proof.
  induction superProperties as [|x l IH]; intros Hnd Hin Hkey.
  { by apply elem_of_nil in Hin. }
  rewrite keysOf_cons in Hnd. apply NoDup_cons in Hnd as [Hx Hnd].
  apply elem_of_cons in Hin as [->|Hin].
  - rewrite slotAfter_cons_eq by done. rewrite mergeAttributes_spec. by case_decide.
  - rewrite slotAfter_cons_ne; [by apply IH|].
    intros Heq. apply Hx. rewrite Heq, <- Hkey. unfold keysOf. apply list_elem_of_fmap.
    by exists s.
Qed.

Lemma option_of_value d value o : option_of d value = Some o → flag_value o = value.
Proof.
  unfold option_of. destruct (list_find _ _) as [[i x]|] eqn:Hfind; [|done].
  intros [= <-]. by apply list_find_Some in Hfind as (_ & ? & _).
Qed.

Lemma bitOption_value inheriting super i o :
  bitOption inheriting super i = Some o → flag_value o = Z.shiftl 1 i.
Proof.
  unfold bitOption. destruct (option_of inheriting _) eqn:Hown.
  - intros [= <-]. by eapply option_of_value.
  - apply option_of_value.
Qed.

Lemma shiftl_1_inj (i j : Z) : (0 ≤ i)%Z → (0 ≤ j)%Z → Z.shiftl 1 i = Z.shiftl 1 j → i = j.
Proof.
  intros Hi Hj. rewrite !Z.shiftl_1_l. by apply Z.pow_inj_r.
Qed.

(** Looking up a bit among the options assembled for a list of positions. *)
Lemma list_find_omap_bitOption inheriting super positions i :
  NoDup positions → Forall (fun j => (0 ≤ j)%Z) positions → (0 ≤ i)%Z →
  snd <$> list_find (fun o => flag_value o = Z.shiftl 1 i)
            (omap (bitOption inheriting super) positions)
  = if decide (i ∈ positions) then bitOption inheriting super i else None.
Proof.
  intros Hnd Hpos Hi. induction positions as [|j positions IH].
  { cbn. by rewrite decide_False by apply not_elem_of_nil. }
  apply NoDup_cons in Hnd as [Hj Hnd]. apply Forall_cons in Hpos as [Hj0 Hpos].
  specialize (IH Hnd Hpos). cbn [omap list_omap].
  destruct (decide (j = i)) as [->|Hne].
  - rewrite decide_True by (by left). rewrite decide_False in IH by done.
    destruct (bitOption inheriting super i) as [o|] eqn:Hbit; [|done].
    cbn [list_find]. by rewrite decide_True by (by eapply bitOption_value).
  - assert ((if decide (i ∈ j :: positions) then bitOption inheriting super i else None)
            = (if decide (i ∈ positions) then bitOption inheriting super i else None)) as ->.
    { destruct (decide (i ∈ positions)) as [Hin|Hin].
      - rewrite decide_True; [done|by right].
      - rewrite decide_False; [done|]. intros [?|?]%elem_of_cons; [congruence|done]. }
    destruct (bitOption inheriting super j) as [o|] eqn:Hbit; [|done].
    cbn [list_find]. rewrite decide_False.
    + rewrite <- IH. by destruct (list_find _ _) as [[? ?]|].
    + apply bitOption_value in Hbit. rewrite Hbit. intros ?%shiftl_1_inj; done.
Qed.

Lemma perBitMerge_option inheriting super i :
  (0 ≤ i < 24)%Z →
  option_of (perBitMerge inheriting super) (Z.shiftl 1 i) = bitOption inheriting super i.
Proof.
  intros Hi. unfold option_of, perBitMerge. cbn [pd_options].
  rewrite list_find_omap_bitOption.
  - rewrite decide_True; [done|]. apply elem_of_seqZ. lia.
  - apply NoDup_seqZ.
  - apply Forall_forall. intros j Hj%elem_of_seqZ. lia.
  - lia.
Qed.

(** ** Properties of the selector *)

Lemma findClassInfoWithType_Some classes type c :
  findClassInfoWithType classes type = Some c → c ∈ classes ∧ ci_type c = type.
Proof.
  unfold findClassInfoWithType. intros [Hin Ht]%find_some.
  split; [by apply list_elem_of_In|by apply bool_decide_eq_true in Ht].
Qed.

Lemma findClassInfoWithType_None classes type :
  findClassInfoWithType classes type = None ↔ Forall (fun c => ci_type c ≠ type) classes.
Proof.
  unfold findClassInfoWithType. induction classes as [|c classes IH]; cbn.
  { split; [constructor|done]. }
  rewrite Forall_cons, <- IH. case_bool_decide.
  - split; [done|by intros [? _]].
  - split; [by split|by intros [_ ?]].
Qed.

Lemma selectSuperClass_elem inheritingClass candidates c :
  selectSuperClass inheritingClass candidates = Some c → c ∈ candidates.
Proof.
  unfold selectSuperClass. repeat case_bool_decide; try done.
  - destruct candidates; [done|]. intros [= ->]. by left.
  - destruct (findClassInfoWithType candidates (ci_type inheritingClass)) eqn:Hfind.
    + intros [= ->]. by apply findClassInfoWithType_Some in Hfind as [? _].
    + by intros [? _]%findClassInfoWithType_Some.
  - destruct (findClassInfoWithType candidates (ci_type inheritingClass)) eqn:Hfind; [|done].
    intros [= ->]. by apply findClassInfoWithType_Some in Hfind as [? _].
Qed.

Lemma findClassInfos_elem filteredClassInfos name c :
  c ∈ findClassInfos filteredClassInfos name ↔ ci_name c = name ∧ c ∈ filteredClassInfos.
Proof. unfold findClassInfos. by rewrite list_elem_of_filter. Qed.

(** ** Properties of the resolver *)

Lemma forEach_cons_Some {S A : Type} (body : S → A → option S) st x l st' :
  forEach body st (x :: l) = Some st' ↔
  ∃ st1, body st x = Some st1 ∧ forEach body st1 l = Some st'.
Proof.
  cbn. destruct (body st x) as [st1|].
  - split; [by exists st1|by intros (? & [= <-] & ?)].
  - split; [done|by intros (? & ? & ?)].
Qed.

Lemma forEach_rel {S A : Type} (body : S → A → option S) (R : S → S → Prop) l :
  (∀ st, R st st) →
  (∀ st1 st2 st3, R st1 st2 → R st2 st3 → R st1 st3) →
  (∀ st x st', x ∈ l → body st x = Some st' → R st st') →
  ∀ st st', forEach body st l = Some st' → R st st'.
Proof.
  intros Hrefl Htrans. induction l as [|x l IH]; intros Hbody st st'.
  { intros [= ->]. apply Hrefl. }
  intros (st1 & Hx & Hl)%forEach_cons_Some. apply (Htrans _ st1).
  - apply (Hbody st x); [by left|done].
  - apply IH; [|done]. intros ? y ? Hy. apply Hbody. by right.
Qed.

Lemma forEach_total {S A : Type} (body : S → A → option S) (I : S → Prop) l :
  (∀ st x, x ∈ l → I st → ∃ st', body st x = Some st' ∧ I st') →
  ∀ st, I st → ∃ st', forEach body st l = Some st' ∧ I st'.
Proof.
  induction l as [|x l IH]; intros Hbody st Hst; [by exists st|].
  destruct (Hbody st x) as (st1 & Hx & Hst1); [by left|done|].
  destruct (IH (fun st y Hy => Hbody st y (list_elem_of_further _ _ _ Hy)) st1 Hst1)
    as (st' & Hl & Hst').
  exists st'. cbn. by rewrite Hx.
Qed.

Section Walk.

(** Whatever holds between two states of the walk whenever it holds across
    each of its steps, holds from the start of a walk to its end. *)
Variable filteredClassInfos : list EntityDefinitionClassInfo.
Variable R : ResolveState → ResolveState → Prop.
Hypothesis R_refl : ∀ st, R st st.
Hypothesis R_trans : ∀ st1 st2 st3, R st1 st2 → R st2 st3 → R st1 st3.
Hypothesis R_error : ∀ st location message,
  R st (mkResolveState (error (rs_status st) location message) (rs_inheritingClass st)
          (rs_visited st)).
Hypothesis R_enter : ∀ st superClass,
  superClass ∈ filteredClassInfos →
  R st (mkResolveState (rs_status st) (inheritAttributes (rs_inheritingClass st) superClass)
          ({[ci_name superClass]} ∪ rs_visited st)).
Hypothesis R_leave : ∀ st name,
  R st (mkResolveState (rs_status st) (rs_inheritingClass st) (rs_visited st ∖ {[name]})).

Lemma inheritFromAndRecurse_rel recurse st superClass st' :
  (∀ st1 c st2, recurse st1 c = Some st2 → R st1 st2) →
  superClass ∈ filteredClassInfos →
  inheritFromAndRecurse recurse st superClass = Some st' → R st st'.
Proof.
  intros Hrec Hin. unfold inheritFromAndRecurse. case_bool_decide.
  - destruct (recurse _ superClass) as [st2|] eqn:Hst2; [|done]. intros [= <-].
    eapply R_trans; [by apply (R_enter st superClass)|].
    eapply R_trans; [by eapply Hrec|]. apply R_leave.
  - intros [= <-]. apply R_error.
Qed.

Lemma inheritFromName_rel recurse classWithSuperClasses st name st' :
  (∀ st1 c st2, recurse st1 c = Some st2 → R st1 st2) →
  inheritFromName recurse filteredClassInfos classWithSuperClasses st name = Some st' →
  R st st'.
Proof.
  intros Hrec. unfold inheritFromName.
  destruct (selectSuperClass _ _) as [next|] eqn:Hsel.
  - apply inheritFromAndRecurse_rel; [done|].
    apply selectSuperClass_elem in Hsel. by apply findClassInfos_elem in Hsel as [_ ?].
  - intros [= <-]. apply R_error.
Qed.

Lemma findSuperClassesAndInheritFrom_rel fuel st classWithSuperClasses st' :
  findSuperClassesAndInheritFrom fuel filteredClassInfos st classWithSuperClasses = Some st' →
  R st st'.
Proof.
  revert st classWithSuperClasses st'. induction fuel as [|fuel IH]; [done|].
  intros st c st'. cbn. apply forEach_rel; [done|done|].
  intros st1 name st2 _. apply inheritFromName_rel. apply IH.
Qed.

Lemma forEach_inheritFromName_rel fuel classWithSuperClasses st names st' :
  forEach
    (inheritFromName (findSuperClassesAndInheritFrom fuel filteredClassInfos)
       filteredClassInfos classWithSuperClasses) st names = Some st' →
  R st st'.
Proof.
  apply forEach_rel; [done|done|].
  intros st1 name st2 _. apply inheritFromName_rel.
  intros ? ? ?. apply findSuperClassesAndInheritFrom_rel.
Qed.

End Walk.

(** The names that can be put on a path. *)
Definition classNames (filteredClassInfos : list EntityDefinitionClassInfo) : gset string :=
  list_to_set (ci_name <$> filteredClassInfos).

Lemma classNames_size filteredClassInfos :
  size (classNames filteredClassInfos) ≤ length filteredClassInfos.
Proof.
  unfold classNames. induction filteredClassInfos as [|c l IH]; cbn.
  { by rewrite size_empty. }
  rewrite size_union_alt, size_singleton.
  assert (size (list_to_set (ci_name <$> l) ∖ {[ci_name c]} : gset string)
          ≤ size (list_to_set (ci_name <$> l) : gset string)) as Hle.
  { apply subseteq_size. set_solver. }
  lia.
Qed.

Lemma classNames_elem filteredClassInfos c :
  c ∈ filteredClassInfos → ci_name c ∈ classNames filteredClassInfos.
Proof.
  intros Hin. unfold classNames. apply elem_of_list_to_set, list_elem_of_fmap.
  by exists c.
Qed.

(** The walk returns whenever the fuel exceeds the number of names that are
    not yet on the path, and it leaves the path as it found it. *)
Lemma findSuperClassesAndInheritFrom_total filteredClassInfos fuel :
  ∀ st classWithSuperClasses,
    rs_visited st ⊆ classNames filteredClassInfos →
    size (classNames filteredClassInfos) < fuel + size (rs_visited st) →
    ∃ st',
      findSuperClassesAndInheritFrom fuel filteredClassInfos st classWithSuperClasses = Some st'
      ∧ rs_visited st' = rs_visited st.
Proof.
  induction fuel as [|fuel IH]; intros st c Hsub Hsize.
  { apply subseteq_size in Hsub. lia. }
  cbn. apply (forEach_total _ (fun st0 => rs_visited st0 = rs_visited st)); [|done].
  intros st0 name _ Hvis. unfold inheritFromName.
  destruct (selectSuperClass _ _) as [next|] eqn:Hsel; [|by eexists].
  apply selectSuperClass_elem, findClassInfos_elem in Hsel as [_ Hin].
  apply classNames_elem in Hin.
  unfold inheritFromAndRecurse. case_bool_decide as Hfresh; [|by eexists].
  rewrite Hvis in Hfresh.
  destruct (IH (mkResolveState (rs_status st0)
                  (inheritAttributes (rs_inheritingClass st0) next)
                  ({[ci_name next]} ∪ rs_visited st0)) next) as (st2 & -> & Hvis2).
  { cbn. rewrite Hvis. set_solver. }
  { cbn. rewrite Hvis, size_union, size_singleton by set_solver. lia. }
  eexists. split; [done|]. cbn in *. rewrite Hvis2, Hvis. set_solver.
Qed.

(** The fuel that [resolveInheritanceOf] starts with is enough. *)
Lemma resolveInheritanceOf_fuel filteredClassInfos status inheritingClass :
  ∃ st,
    findSuperClassesAndInheritFrom (resolveFuel filteredClassInfos) filteredClassInfos
      (mkResolveState status inheritingClass ∅) inheritingClass = Some st
    ∧ resolveInheritanceOf filteredClassInfos status inheritingClass
      = (rs_status st, rs_inheritingClass st).
Proof.
  destruct (findSuperClassesAndInheritFrom_total filteredClassInfos
              (resolveFuel filteredClassInfos) (mkResolveState status inheritingClass ∅)
              inheritingClass) as (st & Hst & _).
  { set_solver. }
  { cbn. rewrite size_empty. pose proof (classNames_size filteredClassInfos).
    unfold resolveFuel. lia. }
  exists st. split; [done|]. unfold resolveInheritanceOf. by rewrite Hst.
Qed.

(** An attribute that is set stays as it is for the rest of the walk. *)
Definition keepsSet (st st' : ResolveState) : Prop :=
  (∀ v, ci_description (rs_inheritingClass st) = Some v →
        ci_description (rs_inheritingClass st') = Some v)
  ∧ (∀ v, ci_color (rs_inheritingClass st) = Some v →
          ci_color (rs_inheritingClass st') = Some v)
  ∧ (∀ v, ci_size (rs_inheritingClass st) = Some v →
          ci_size (rs_inheritingClass st') = Some v).

Lemma keepsSet_refl st : keepsSet st st.
Proof. by split_and!. Qed.

Lemma keepsSet_trans st1 st2 st3 : keepsSet st1 st2 → keepsSet st2 st3 → keepsSet st1 st3.
Proof. intros (? & ? & ?) (? & ? & ?). split_and!; auto. Qed.

Lemma keepsSet_enter st superClass :
  keepsSet st
    (mkResolveState (rs_status st) (inheritAttributes (rs_inheritingClass st) superClass)
       ({[ci_name superClass]} ∪ rs_visited st)).
Proof. split_and!; intros v Hv; cbn; by rewrite Hv. Qed.

Lemma findSuperClassesAndInheritFrom_keepsSet filteredClassInfos fuel st c st' :
  findSuperClassesAndInheritFrom fuel filteredClassInfos st c = Some st' → keepsSet st st'.
Proof.
  apply findSuperClassesAndInheritFrom_rel.
  - apply keepsSet_refl.
  - apply keepsSet_trans.
  - intros. by split_and!.
  - intros. apply keepsSet_enter.
  - intros. by split_and!.
Qed.

Lemma forEach_inheritFromName_keepsSet filteredClassInfos fuel c st names st' :
  forEach
    (inheritFromName (findSuperClassesAndInheritFrom fuel filteredClassInfos)
       filteredClassInfos c) st names = Some st' →
  keepsSet st st'.
Proof.
  apply forEach_inheritFromName_rel.
  - apply keepsSet_refl.
  - apply keepsSet_trans.
  - intros. by split_and!.
  - intros. apply keepsSet_enter.
  - intros. by split_and!.
Qed.

(** A name with one candidate selects it, whatever its type. *)
Lemma inheritFromName_single recurse filteredClassInfos classWithSuperClasses st name superClass :
  findClassInfos filteredClassInfos name = [superClass] →
  inheritFromName recurse filteredClassInfos classWithSuperClasses st name
  = inheritFromAndRecurse recurse st superClass.
Proof. intros Hfind. unfold inheritFromName, selectSuperClass. by rewrite Hfind. Qed.

(** Entering a super class that is not on the path. *)
Lemma inheritFromAndRecurse_fresh recurse st superClass st' :
  ci_name superClass ∉ rs_visited st →
  inheritFromAndRecurse recurse st superClass = Some st' →
  ∃ st2,
    recurse
      (mkResolveState (rs_status st) (inheritAttributes (rs_inheritingClass st) superClass)
         ({[ci_name superClass]} ∪ rs_visited st)) superClass = Some st2
    ∧ st' = mkResolveState (rs_status st2) (rs_inheritingClass st2)
              (rs_visited st2 ∖ {[ci_name superClass]}).
Proof.
  intros Hfresh. unfold inheritFromAndRecurse. rewrite bool_decide_eq_true_2 by done.
  destruct (recurse _ superClass) as [st2|]; [|done]. intros [= <-]. by exists st2.
Qed.

(** The state of the walk from X after it has merged Y and then Z. *)
Lemma chain_walk filteredClassInfos fuel status X Y Z restX restY st :
  ci_superClasses X = ci_name Y :: restX →
  ci_superClasses Y = ci_name Z :: restY →
  findClassInfos filteredClassInfos (ci_name Y) = [Y] →
  findClassInfos filteredClassInfos (ci_name Z) = [Z] →
  ci_name Y ≠ ci_name Z →
  findSuperClassesAndInheritFrom fuel filteredClassInfos (mkResolveState status X ∅) X
  = Some st →
  ∃ st0,
    rs_inheritingClass st0 = inheritAttributes (inheritAttributes X Y) Z
    ∧ keepsSet st0 st
    ∧ (restX = [] → restY = [] → ci_superClasses Z = [] →
       rs_status st = status ∧ rs_inheritingClass st = rs_inheritingClass st0).
Proof.
  intros HX HY HfY HfZ Hne.
  destruct fuel as [|fuel]; [done|]. cbn [findSuperClassesAndInheritFrom]. rewrite HX.
  intros (st1 & Hst1 & Hrest1)%forEach_cons_Some.
  rewrite (inheritFromName_single _ _ _ _ _ Y) in Hst1 by done.
  apply inheritFromAndRecurse_fresh in Hst1 as (st2 & Hst2 & ->); [|set_solver].
  destruct fuel as [|fuel]; [done|]. cbn [findSuperClassesAndInheritFrom] in Hst2.
  rewrite HY in Hst2. apply forEach_cons_Some in Hst2 as (st3 & Hst3 & Hrest3).
  rewrite (inheritFromName_single _ _ _ _ _ Z) in Hst3 by done.
  apply inheritFromAndRecurse_fresh in Hst3 as (st4 & Hst4 & ->); [|cbn; set_solver].
  cbn [rs_status rs_inheritingClass rs_visited] in *.
  eexists (mkResolveState status (inheritAttributes (inheritAttributes X Y) Z) _).
  split; [done|]. split.
  - eapply keepsSet_trans; [exact (findSuperClassesAndInheritFrom_keepsSet _ _ _ _ _ Hst4)|].
    eapply keepsSet_trans; [|exact (forEach_inheritFromName_keepsSet _ _ _ _ _ _ Hrest1)].
    eapply (keepsSet_trans _ st2); [|by split_and!].
    eapply keepsSet_trans; [|exact (forEach_inheritFromName_keepsSet _ _ _ _ _ _ Hrest3)].
    by split_and!.
  - intros -> -> HZ. cbn in Hrest1, Hrest3. injection Hrest1 as <-. injection Hrest3 as <-.
    destruct fuel as [|fuel]; [done|]. cbn [findSuperClassesAndInheritFrom] in Hst4.
    rewrite HZ in Hst4. cbn in Hst4. by injection Hst4 as <-.
Qed.

Lemma compatible_sym a b : compatible a b → compatible b a.
Proof. unfold compatible. intros H Hn. destruct H as (? & ? & ?); [done|]. by split_and!. Qed.

Lemma Clean_lookup l i j a b :
  Clean l → l !! i = Some a → l !! j = Some b → i ≠ j → compatible a b.
Proof.
  unfold Clean. intros Hclean. revert i j. induction Hclean as [|x l Hx Hl IH]; [done|].
  intros [|i] [|j] Hi Hj Hij; cbn in *; try done.
  - injection Hi as <-. rewrite Forall_forall in Hx. apply Hx. by eapply list_elem_of_lookup_2.
  - injection Hj as <-. apply compatible_sym. rewrite Forall_forall in Hx. apply Hx.
    by eapply list_elem_of_lookup_2.
  - apply (IH i j); [done|done|lia].
Qed.

(** The resolution of one class, unfolded at the state in which the walk
    ends. *)
Lemma resolveInheritanceOf_chain filteredClassInfos status X Y Z restX restY :
  ci_superClasses X = ci_name Y :: restX →
  ci_superClasses Y = ci_name Z :: restY →
  findClassInfos filteredClassInfos (ci_name Y) = [Y] →
  findClassInfos filteredClassInfos (ci_name Z) = [Z] →
  ci_name Y ≠ ci_name Z →
  ∃ st0 st,
    resolveInheritanceOf filteredClassInfos status X = (rs_status st, rs_inheritingClass st)
    ∧ rs_inheritingClass st0 = inheritAttributes (inheritAttributes X Y) Z
    ∧ keepsSet st0 st
    ∧ (restX = [] → restY = [] → ci_superClasses Z = [] →
       rs_status st = status ∧ rs_inheritingClass st = rs_inheritingClass st0).
Proof.
  intros HX HY HfY HfZ Hne.
  destruct (resolveInheritanceOf_fuel filteredClassInfos status X) as (st & Hst & ->).
  destruct (chain_walk _ _ _ _ _ _ _ _ _ HX HY HfY HfZ Hne Hst) as (st0 & ? & ? & ?).
  by exists st0, st.
Qed.

(** Reaching a super class that is on the path reports the cycle and does
    nothing else, whatever the recursion would do. *)
Lemma inheritFromAndRecurse_cycle recurse st superClass :
  ci_name superClass ∈ rs_visited st →
  inheritFromAndRecurse recurse st superClass
  = Some (mkResolveState
            (error (rs_status st) (ci_location (rs_inheritingClass st)) cycleMessage)
            (rs_inheritingClass st) (rs_visited st)).
Proof.
  intros Hin. unfold inheritFromAndRecurse. by rewrite bool_decide_eq_false_2 by auto.
Qed.

Lemma forEach_singleton_Some {S A : Type} (body : S → A → option S) st x st' :
  forEach body st [x] = Some st' ↔ body st x = Some st'.
Proof. cbn. by destruct (body st x). Qed.

(** The walk from A through the cycle A, B, A. *)
Lemma cycle_walk filteredClassInfos fuel status A B st :
  ci_superClasses A = [ci_name B] →
  ci_superClasses B = [ci_name A] →
  findClassInfos filteredClassInfos (ci_name A) = [A] →
  findClassInfos filteredClassInfos (ci_name B) = [B] →
  ci_name A ≠ ci_name B →
  findSuperClassesAndInheritFrom fuel filteredClassInfos (mkResolveState status A ∅) A
  = Some st →
  rs_status st = error status (ci_location A) cycleMessage
  ∧ rs_inheritingClass st = inheritAttributes (inheritAttributes A B) A.
Proof.
  intros HA HB HfA HfB Hne.
  destruct fuel as [|fuel]; [done|]. cbn [findSuperClassesAndInheritFrom]. rewrite HA.
  rewrite forEach_singleton_Some, (inheritFromName_single _ _ _ _ _ B) by done.
  intros (st2 & Hst2 & ->)%inheritFromAndRecurse_fresh; [|set_solver].
  destruct fuel as [|fuel]; [done|]. cbn [findSuperClassesAndInheritFrom] in Hst2.
  rewrite HB in Hst2.
  rewrite forEach_singleton_Some, (inheritFromName_single _ _ _ _ _ A) in Hst2 by done.
  apply inheritFromAndRecurse_fresh in Hst2 as (st4 & Hst4 & ->); [|cbn; set_solver].
  destruct fuel as [|fuel]; [done|]. cbn [findSuperClassesAndInheritFrom] in Hst4.
  cbn [ci_superClasses inheritAttributes] in Hst4. rewrite HA in Hst4.
  rewrite forEach_singleton_Some, (inheritFromName_single _ _ _ _ _ B) in Hst4 by done.
  rewrite inheritFromAndRecurse_cycle in Hst4 by (cbn; set_solver).
  by injection Hst4 as <-.
Qed.

Lemma findClassInfoWithType_is_Some classes type :
  (∃ c, c ∈ classes ∧ ci_type c = type) → is_Some (findClassInfoWithType classes type).
Proof.
  intros (c & Hin & Ht). destruct (findClassInfoWithType classes type) eqn:Hfind; [done|].
  apply findClassInfoWithType_None in Hfind. rewrite Forall_forall in Hfind.
  by destruct (Hfind c Hin).
Qed.

(** ** Properties of the entry points *)

Lemma grows_refl (status : ParserStatus) : grows status status.
Proof. exists []. by rewrite app_nil_r. Qed.

Lemma grows_trans (s1 s2 s3 : ParserStatus) : grows s1 s2 → grows s2 s3 → grows s1 s3.
Proof. intros [m1 ->] [m2 ->]. exists (m1 ++ m2). by rewrite app_assoc. Qed.

Lemma findSuperClassesAndInheritFrom_sameIdentity filteredClassInfos fuel st c st' :
  findSuperClassesAndInheritFrom fuel filteredClassInfos st c = Some st' →
  sameIdentity (rs_inheritingClass st) (rs_inheritingClass st')
  ∧ grows (rs_status st) (rs_status st').
Proof.
  apply (findSuperClassesAndInheritFrom_rel filteredClassInfos
           (fun st st' => sameIdentity (rs_inheritingClass st) (rs_inheritingClass st')
                          ∧ grows (rs_status st) (rs_status st'))).
  - intros ?. split; [done|apply grows_refl].
  - intros st1 st2 st3 [(? & ? & ? & ?) ?] [(? & ? & ? & ?) ?].
    split; [split_and!; congruence|by eapply grows_trans].
  - intros ? location message. split; [done|]. by eexists.
  - intros ? ? _. split; [done|apply grows_refl].
  - intros ? ?. split; [done|apply grows_refl].
Qed.

Lemma resolveInheritanceOf_sameIdentity filteredClassInfos status c :
  sameIdentity c (resolveInheritanceOf filteredClassInfos status c).2
  ∧ grows status (resolveInheritanceOf filteredClassInfos status c).1.
Proof.
  destruct (resolveInheritanceOf_fuel filteredClassInfos status c) as (st & Hst & ->).
  by apply findSuperClassesAndInheritFrom_sameIdentity in Hst.
Qed.

(** A class that declares no super class is returned as it is. *)
Lemma resolveInheritanceOf_no_superClasses filteredClassInfos status c :
  ci_superClasses c = [] → resolveInheritanceOf filteredClassInfos status c = (status, c).
Proof.
  intros Hc. unfold resolveInheritanceOf, resolveFuel. cbn [findSuperClassesAndInheritFrom].
  by rewrite Hc.
Qed.

Lemma mapWithStatus_Forall2 {A B : Type} (f : ParserStatus → A → ParserStatus * B)
    (Q : A → B → Prop) l :
  (∀ status x, Q x (f status x).2 ∧ grows status (f status x).1) →
  ∀ status,
    Forall2 Q l (mapWithStatus f status l).2 ∧ grows status (mapWithStatus f status l).1.
Proof.
  intros Hf. induction l as [|x l IH]; intros status; cbn.
  { split; [constructor|apply grows_refl]. }
  destruct (Hf status x) as [HQ Hg]. destruct (f status x) as [status1 y].
  destruct (IH status1) as [HQs Hgs]. destruct (mapWithStatus f status1 l) as [status2 ys].
  split; [by constructor|by eapply grows_trans].
Qed.

Lemma mapWithStatus_id {A : Type} (f : ParserStatus → A → ParserStatus * A) l :
  (∀ status x, x ∈ l → f status x = (status, x)) →
  ∀ status, mapWithStatus f status l = (status, l).
Proof.
  induction l as [|x l IH]; intros Hf status; [done|]. cbn.
  rewrite Hf by (by left). rewrite IH; [done|]. intros ? y Hy. apply Hf. by right.
Qed.

(** What [resolveInheritance] returns: a record for each class of the filtered
    vector that is not a base class, in order, with its name and its type. *)
Lemma resolveInheritance_spec status classInfos :
  Forall2 sameIdentity
    (filter (fun c => ci_type c ≠ BaseClass) (filterRedundantClasses status classInfos).2)
    (resolveInheritance status classInfos).2
  ∧ grows status (resolveInheritance status classInfos).1.
Proof.
  unfold resolveInheritance.
  destruct (filterSpec_sublist classInfos status []) as (kept & warnings & Hf & _).
  rewrite filterRedundantClasses_spec. unfold filterRedundantClassesSpec. rewrite Hf.
  cbn [snd app].
  destruct (mapWithStatus_Forall2 (resolveInheritanceOf kept) sameIdentity
              (filter (fun c => ci_type c ≠ BaseClass) kept)
              (fun s x => resolveInheritanceOf_sameIdentity kept s x) (status ++ warnings))
    as [HQ Hg].
  split; [done|]. eapply grows_trans; [|done]. by eexists.
Qed.

Lemma filter_id {A : Type} (P : A → Prop) `{!∀ x, Decision (P x)} (l : list A) :
  Forall P l → filter P l = l.
Proof.
  induction 1 as [|x l Hx Hl IH]; [done|]. by rewrite filter_cons_True, IH.
Qed.

(** The loop of [createDefinitions], when no class is a base class. *)
Lemma createDefinitions_loop (defaultEntityColor : Color) resolvedClasses :
  ∀ result,
    foldl (fun result classInfo =>
             match createDefinition classInfo defaultEntityColor with
             | Some definition => result ++ [definition]
             | None => result
             end) result resolvedClasses
    = result ++ omap (fun c => createDefinition c defaultEntityColor) resolvedClasses.
Proof.
  induction resolvedClasses as [|c l IH]; intros result; cbn.
  { by rewrite app_nil_r. }
  rewrite IH. destruct (createDefinition c defaultEntityColor); [|done].
  by rewrite <- app_assoc.
Qed.

Lemma createDefinition_identity c (defaultEntityColor : Color) d :
  createDefinition c defaultEntityColor = Some d →
  definitionName d = ci_name c ∧ definitionType d = ci_type c.
Proof. unfold createDefinition. destruct (ci_type c); intros [= <-]; done. Qed.

(** [createDefinitions] filters twice; the second pass changes nothing. *)
Lemma createDefinitions_spec status classInfos (defaultEntityColor : Color) :
  createDefinitions status classInfos defaultEntityColor
  = ((resolveInheritance status classInfos).1,
     omap (fun c => createDefinition c defaultEntityColor)
       (resolveInheritance status classInfos).2).
Proof.
  unfold createDefinitions, resolveInheritance.
  pose proof (filterRedundantClasses_Clean status classInfos) as Hclean.
  destruct (filterRedundantClasses status classInfos) as [status1 filtered].
  rewrite (filterRedundantClasses_Clean_id status1 filtered) by done.
  destruct (mapWithStatus _ status1 _) as [status2 resolved].
  by rewrite createDefinitions_loop.
Qed.

Lemma createDefinitions_keys (defaultEntityColor : Color) classes resolved :
  Forall2 sameIdentity classes resolved →
  Forall (fun c => ci_type c ≠ BaseClass) classes →
  (fun d => (definitionName d, definitionType d))
    <$> omap (fun c => createDefinition c defaultEntityColor) resolved
  = (fun c => (ci_name c, ci_type c)) <$> classes.
Proof.
  induction 1 as [|c r classes resolved (Hn & Ht & _) _ IH]; [done|].
  intros [Hc Hcs]%Forall_cons. cbn [omap list_omap]. rewrite fmap_cons, <- IH by done.
  destruct (createDefinition r defaultEntityColor) as [d|] eqn:Hd.
  - apply createDefinition_identity in Hd as [Hdn Hdt]. rewrite fmap_cons.
    by rewrite Hdn, Hdt, Hn, Ht.
  - unfold createDefinition in Hd. rewrite Ht in Hd. by destruct (ci_type c).
Qed.

Lemma filter_nonBase_Forall (l : list EntityDefinitionClassInfo) :
  Forall (fun c => ci_type c ≠ BaseClass) (filter (fun c => ci_type c ≠ BaseClass) l).
Proof. apply Forall_forall. by intros c [? _]%list_elem_of_filter. Qed.

Lemma same_keys_nonBase (l l' : list EntityDefinitionClassInfo) :
  Forall2 (fun a b => ci_name a = ci_name b ∧ ci_type a = ci_type b) l l' →
  Forall (fun c => ci_type c ≠ BaseClass) l → Forall (fun c => ci_type c ≠ BaseClass) l'.
Proof.
  induction 1 as [|a b l l' [_ Ht] _ IH]; [done|].
  intros [Ha Hl]%Forall_cons. constructor; [by rewrite <- Ht|by apply IH].
Qed.

(** ** The claims about the redundancy filter *)

(** C5. The redundancy filter goes through the input in order and treats each
    record as described: it drops the record with a duplicate-class warning
    when a record of the same name and type was already accepted; otherwise it
    drops it with a redundant-class warning when a base class of that name was
    already accepted, or when the record is a base class and some record of
    that name was already accepted; otherwise it appends the record to the
    output. The records accepted are therefore a subsequence of the input, in
    the order of the input. *)
Theorem filter_follows_description status classInfos :
  filterRedundantClasses status classInfos = foldl filterSpecStep (status, []) classInfos
  ∧ sublist (filterRedundantClasses status classInfos).2 classInfos.
Proof.
  rewrite filterRedundantClasses_spec. split; [done|].
  unfold filterRedundantClassesSpec.
  by destruct (filterSpec_sublist classInfos status []) as (kept & warnings & -> & Hsub).
Qed.

(** C6. In what the redundancy filter returns, no two records share both name
    and type; a base class is the only record of its name; and a point class
    and a brush class of the same name both survive. *)
Theorem filter_output_invariant status classInfos :
  let accepted := (filterRedundantClasses status classInfos).2 in
  (∀ i j a b, accepted !! i = Some a → accepted !! j = Some b →
     ci_name a = ci_name b → ci_type a = ci_type b → i = j)
  ∧ (∀ i j a b, accepted !! i = Some a → accepted !! j = Some b →
       ci_name a = ci_name b → ci_type a = BaseClass → i = j)
  ∧ (∀ p b, ci_type p = PointClass → ci_type b = BrushClass →
       filterRedundantClasses status [p; b] = (status, [p; b])).
Proof.
  intros accepted. pose proof (filterRedundantClasses_Clean status classInfos) as Hclean.
  fold accepted in Hclean. split_and!.
  - intros i j a b Hi Hj Hname Htype. destruct (decide (i = j)) as [|Hij]; [done|].
    by destruct (Clean_lookup _ _ _ _ _ Hclean Hi Hj Hij Hname) as (? & _ & _).
  - intros i j a b Hi Hj Hname Htype. destruct (decide (i = j)) as [|Hij]; [done|].
    by destruct (Clean_lookup _ _ _ _ _ Hclean Hi Hj Hij Hname) as (_ & ? & _).
  - intros p b Hp Hb. apply filterRedundantClasses_Clean_id.
    constructor; [|constructor; constructor]. constructor; [|constructor].
    intros _. rewrite Hp, Hb. by split_and!.
Qed.

(** ** The claims about the resolver *)

(** C1, as amended. Let X declare Y as its first super class and Y declare Z
    as its first super class, let each of the two names have one candidate in
    the filtered vector, let Y and Z be different names, and let X have no
    description, no color and no size of its own. Then each of the three
    attributes of the resolved X is the one of Y when Y sets it and else the
    one of Z when Z sets it; and when X, Y and Z declare no other super class,
    the resolved X is X with Y merged into it and then Z, each attribute being
    the one of Y if set and the one of Z otherwise, and nothing is reported. *)
Theorem closer_super_class_takes_precedence filteredClassInfos status X Y Z restX restY :
  ci_superClasses X = ci_name Y :: restX →
  ci_superClasses Y = ci_name Z :: restY →
  findClassInfos filteredClassInfos (ci_name Y) = [Y] →
  findClassInfos filteredClassInfos (ci_name Z) = [Z] →
  ci_name Y ≠ ci_name Z →
  ci_description X = None → ci_color X = None → ci_size X = None →
  let resolved := (resolveInheritanceOf filteredClassInfos status X).2 in
  (∀ v, inheritOptional (ci_description Y) (ci_description Z) = Some v →
        ci_description resolved = Some v)
  ∧ (∀ v, inheritOptional (ci_color Y) (ci_color Z) = Some v → ci_color resolved = Some v)
  ∧ (∀ v, inheritOptional (ci_size Y) (ci_size Z) = Some v → ci_size resolved = Some v)
  ∧ (restX = [] → restY = [] → ci_superClasses Z = [] →
     resolveInheritanceOf filteredClassInfos status X
     = (status, inheritAttributes (inheritAttributes X Y) Z)
     ∧ ci_description resolved = inheritOptional (ci_description Y) (ci_description Z)
     ∧ ci_color resolved = inheritOptional (ci_color Y) (ci_color Z)
     ∧ ci_size resolved = inheritOptional (ci_size Y) (ci_size Z)).
Proof.
  intros HX HY HfY HfZ Hne Hd Hc Hs resolved. subst resolved.
  destruct (resolveInheritanceOf_chain filteredClassInfos status X Y Z restX restY)
    as (st0 & st & -> & Hst0 & (Hkd & Hkc & Hks) & Hstrict); try done.
  rewrite Hst0 in Hkd, Hkc, Hks. cbn in Hkd, Hkc, Hks. rewrite ?Hd, ?Hc, ?Hs in *.
  cbn [snd inheritOptional] in *. split_and!; [done|done|done|].
  intros HrX HrY HZ. destruct (Hstrict HrX HrY HZ) as [-> ->]. rewrite Hst0. cbn.
  by rewrite Hd, Hc, Hs.
Qed.


(** C4. The selection among the candidates that share the name of a declared
    super class: a single candidate is selected whatever its type; among
    several, one of the type of the inheriting class is selected if there is
    one; failing that, a base class is selected if there is one and the
    inheriting class is not a base class; in every other case nothing is
    selected, the error is reported at the class that declares the super
    class, and the inheriting class and the path are left as they are. *)
Theorem selector_policy (inheritingClass : EntityDefinitionClassInfo)
    (candidates : list EntityDefinitionClassInfo) :
  (∀ c, candidates = [c] → selectSuperClass inheritingClass candidates = Some c)
  ∧ (1 < length candidates →
     (∃ c, c ∈ candidates ∧ ci_type c = ci_type inheritingClass) →
     ∃ c, selectSuperClass inheritingClass candidates = Some c
          ∧ c ∈ candidates ∧ ci_type c = ci_type inheritingClass)
  ∧ (1 < length candidates →
     Forall (fun c => ci_type c ≠ ci_type inheritingClass) candidates →
     ci_type inheritingClass ≠ BaseClass →
     (∃ c, c ∈ candidates ∧ ci_type c = BaseClass) →
     ∃ c, selectSuperClass inheritingClass candidates = Some c
          ∧ c ∈ candidates ∧ ci_type c = BaseClass)
  ∧ (candidates = []
     ∨ (1 < length candidates
        ∧ Forall (fun c => ci_type c ≠ ci_type inheritingClass) candidates
        ∧ (ci_type inheritingClass = BaseClass
           ∨ Forall (fun c => ci_type c ≠ BaseClass) candidates)) →
     selectSuperClass inheritingClass candidates = None
     ∧ ∀ recurse filteredClassInfos classWithSuperClasses st name,
         findClassInfos filteredClassInfos name = candidates →
         rs_inheritingClass st = inheritingClass →
         inheritFromName recurse filteredClassInfos classWithSuperClasses st name
         = Some (mkResolveState
                   (rs_status st
                    ++ [Error (ci_location classWithSuperClasses)
                          ("No matching super class found for '" +:+ name +:+ "'")])
                   (rs_inheritingClass st) (rs_visited st))).
Proof.
  split_and!.
  - by intros c ->.
  - intros Hlen Hex. apply findClassInfoWithType_is_Some in Hex as [c Hc].
    exists c. unfold selectSuperClass.
    rewrite bool_decide_eq_false_2, bool_decide_eq_true_2 by lia. rewrite Hc.
    by apply findClassInfoWithType_Some in Hc as [? ?].
  - intros Hlen Hnone Hnb Hex. apply findClassInfoWithType_is_Some in Hex as [c Hc].
    exists c. unfold selectSuperClass.
    rewrite bool_decide_eq_false_2, bool_decide_eq_true_2 by lia.
    apply findClassInfoWithType_None in Hnone. rewrite Hnone.
    rewrite bool_decide_eq_true_2 by done. rewrite Hc.
    by apply findClassInfoWithType_Some in Hc as [? ?].
  - intros Hcase.
    assert (selectSuperClass inheritingClass candidates = None) as Hsel.
    { destruct Hcase as [->|(Hlen & Hnone & Hbase)]; [done|]. unfold selectSuperClass.
      rewrite bool_decide_eq_false_2, bool_decide_eq_true_2 by lia.
      apply findClassInfoWithType_None in Hnone. rewrite Hnone.
      destruct Hbase as [Hb|Hb].
      - by rewrite bool_decide_eq_false_2 by auto.
      - apply findClassInfoWithType_None in Hb. rewrite Hb. by case_bool_decide. }
    split; [done|]. intros recurse f c st name <- <-. unfold inheritFromName.
    by rewrite Hsel.
Qed.

(** ** The claim about the attribute merge *)

(** C3. When one super class is merged into the inheriting class, the keys
    being unique within each of the two: the property list of the result is
    the list of the inheriting class, slot by slot, followed by the properties
    of the super class whose key the inheriting class lacks, in the order of
    the super class. A slot whose key the super class has too is replaced by
    the per-bit merge when both properties are flags with the reserved
    spawnflags key, and is kept as it is in every other case; a slot whose key
    the super class lacks is kept. The per-bit merge goes over the 24 bit
    values 1<<0 to 1<<23 and holds for each the option of the inheriting class
    if it defines one and the option of the super class otherwise. The keys of
    the result are unique again, so the same holds for the next merge. *)
Theorem properties_are_merged_by_key (inheritingClass superClass : EntityDefinitionClassInfo) :
  NoDup (keysOf (ci_propertyDefinitions inheritingClass)) →
  NoDup (keysOf (ci_propertyDefinitions superClass)) →
  ci_propertyDefinitions (inheritAttributes inheritingClass superClass)
  = (slotAfter (ci_propertyDefinitions superClass) <$> ci_propertyDefinitions inheritingClass)
    ++ filter (fun s => pd_key s ∉ keysOf (ci_propertyDefinitions inheritingClass))
         (ci_propertyDefinitions superClass)
  ∧ (∀ own s,
       s ∈ ci_propertyDefinitions superClass → pd_key s = pd_key own →
       slotAfter (ci_propertyDefinitions superClass) own
       = if decide (bothSpawnflags own s) then perBitMerge own s else own)
  ∧ (∀ own,
       pd_key own ∉ keysOf (ci_propertyDefinitions superClass) →
       slotAfter (ci_propertyDefinitions superClass) own = own)
  ∧ (∀ own s,
       bothSpawnflags own s →
       mergeAttributes own s = Some (perBitMerge own s)
       ∧ pd_key (perBitMerge own s) = Spawnflags
       ∧ pd_type (perBitMerge own s) = FlagsProperty
       ∧ pd_options (perBitMerge own s)
         = omap (fun i => match option_of own (Z.shiftl 1 i) with
                          | Some o => Some o
                          | None => option_of s (Z.shiftl 1 i)
                          end) (seqZ 0 24)
       ∧ ∀ i, (0 ≤ i < 24)%Z →
           option_of (perBitMerge own s) (Z.shiftl 1 i)
           = match option_of own (Z.shiftl 1 i) with
             | Some o => Some o
             | None => option_of s (Z.shiftl 1 i)
             end)
  ∧ (∀ own s, ¬ bothSpawnflags own s → mergeAttributes own s = None)
  ∧ NoDup (keysOf (ci_propertyDefinitions (inheritAttributes inheritingClass superClass))).
Proof.
  intros Hown Hsuper. split_and!; [| | | | |by apply foldl_inheritProperty_NoDup].
  - cbn [inheritAttributes ci_propertyDefinitions]. by apply foldl_inheritProperty.
  - intros own s Hin Hkey. by apply slotAfter_found.
  - intros own Hnin. by apply slotAfter_absent.
  - intros own s Hboth. split_and!.
    + rewrite mergeAttributes_spec. by rewrite decide_True.
    + by destruct Hboth as (_ & _ & _ & ?).
    + done.
    + done.
    + intros i Hi. by rewrite perBitMerge_option.
  - intros own s Hnot. rewrite mergeAttributes_spec. by rewrite decide_False.
Qed.

(** ** The claims about the entry points *)

(** C7, as amended. A class info of type base class yields no definition, and
    the definitions that [createDefinitions] returns are, in order, one for
    each point or brush class that the filter accepted, so none is made from a
    base class. A point class without color, size and description is
    materialized with the default entity color of the caller, the box of 8
    units around the origin and the empty description. A brush class without
    color and description is materialized with the default entity color and
    the empty description; its definition holds no box, whatever the size of
    the class. *)
Theorem base_classes_are_skipped_and_defaults_applied status classInfos
    (defaultEntityColor : Color) :
  (∀ c, ci_type c = BaseClass → createDefinition c defaultEntityColor = None)
  ∧ (fun d => (definitionName d, definitionType d))
      <$> (createDefinitions status classInfos defaultEntityColor).2
    = (fun c => (ci_name c, ci_type c))
        <$> filter (fun c => ci_type c ≠ BaseClass)
              (filterRedundantClasses status classInfos).2
  ∧ Forall (fun d => definitionType d ≠ BaseClass)
      (createDefinitions status classInfos defaultEntityColor).2
  ∧ (∀ c, ci_type c = PointClass →
       ci_color c = None → ci_size c = None → ci_description c = None →
       createDefinition c defaultEntityColor
       = Some (PointEntityDefinition (ci_name c) defaultEntityColor
                 (mkBBox (-8, -8, -8)%Z (8, 8, 8)%Z) "" (ci_propertyDefinitions c)
                 (default emptyExpression (ci_modelDefinition c))
                 (default emptyExpression (ci_decalDefinition c))))
  ∧ (∀ c, ci_type c = BrushClass → ci_color c = None → ci_description c = None →
       createDefinition c defaultEntityColor
       = Some (BrushEntityDefinition (ci_name c) defaultEntityColor ""
                 (ci_propertyDefinitions c)))
  ∧ (∀ c d, createDefinition c defaultEntityColor = Some d →
       (ci_color c = None → definitionColor d = defaultEntityColor)
       ∧ (ci_description c = None → definitionDescription d = "")
       ∧ (ci_type c = PointClass → ci_size c = None →
          definitionSize d = Some (bbox3d_of (-8) 8))
       ∧ (ci_type c = BrushClass → definitionSize d = None)).
Proof.
  split_and!.
  - intros c Hc. unfold createDefinition. by rewrite Hc.
  - rewrite createDefinitions_spec. cbn [snd].
    destruct (resolveInheritance_spec status classInfos) as [Hres _].
    apply createDefinitions_keys; [done|apply filter_nonBase_Forall].
  - apply Forall_forall. by intros [] _.
  - intros c Htype Hcolor Hsize Hdescription. unfold createDefinition.
    by rewrite Htype, Hcolor, Hsize, Hdescription.
  - intros c Htype Hcolor Hdescription. unfold createDefinition.
    by rewrite Htype, Hcolor, Hdescription.
  - intros c d. unfold createDefinition. destruct (ci_type c); intros [= <-]; cbn.
    + split_and!; [by intros ->|by intros ->|by intros _ ->|done].
    + split_and!; [by intros ->|by intros ->|done|done].
Qed.

(** C8. Resolving what a resolution returned, with the super class lists
    cleared, returns it as it is and reports nothing; this holds for every
    class list, so in particular for one without name collisions and without
    cycles. *)
Theorem resolution_is_idempotent status classInfos :
  let resolved := resolveInheritance status classInfos in
  resolveInheritance resolved.1 (clearSuperClasses <$> resolved.2)
  = (resolved.1, clearSuperClasses <$> resolved.2).
Proof.
  intros resolved. subst resolved.
  destruct (resolveInheritance_spec status classInfos) as [Hres _].
  set (status1 := (resolveInheritance status classInfos).1).
  set (cleared := clearSuperClasses <$> (resolveInheritance status classInfos).2).
  assert (Forall2 (fun a b => ci_name a = ci_name b ∧ ci_type a = ci_type b)
            (filter (fun c => ci_type c ≠ BaseClass)
               (filterRedundantClasses status classInfos).2) cleared) as Hkeys.
  { subst cleared. apply Forall2_fmap_r. eapply Forall2_impl; [exact Hres|].
    intros a b (Hn & Ht & _). cbn. by rewrite Hn, Ht. }
  assert (Clean cleared) as Hclean.
  { eapply Clean_same_keys; [exact Hkeys|]. apply Clean_filter.
    apply filterRedundantClasses_Clean. }
  assert (Forall (fun c => ci_type c ≠ BaseClass) cleared) as Hnb.
  { eapply same_keys_nonBase; [exact Hkeys|apply filter_nonBase_Forall]. }
  unfold resolveInheritance. rewrite filterRedundantClasses_Clean_id by done.
  rewrite filter_id by done. apply mapWithStatus_id.
  intros s c Hc. apply resolveInheritanceOf_no_superClasses.
  subst cleared. by apply list_elem_of_fmap in Hc as (c' & -> & _).
Qed.

(** C10. The definition made from a brush class holds its name, its color,
    its description and its property definitions and nothing else: whatever
    size, model definition and decal definition the resolved record has, the
    definition is the same. *)
Theorem brush_definition_drops_geometry (c : EntityDefinitionClassInfo)
    (defaultEntityColor : Color) :
  ci_type c = BrushClass →
  createDefinition c defaultEntityColor
  = Some (BrushEntityDefinition (ci_name c) (default defaultEntityColor (ci_color c))
            (default "" (ci_description c)) (ci_propertyDefinitions c))
  ∧ ∀ size modelDefinition decalDefinition,
      createDefinition (withGeometry c size modelDefinition decalDefinition) defaultEntityColor
      = createDefinition c defaultEntityColor.
Proof.
  intros Hc. unfold createDefinition. cbn [withGeometry ci_type]. by rewrite Hc.
Qed.

(** ** Further properties of the redundancy filter *)

(** A diagnostic is a warning, or an error. *)
Definition isWarning (d : Diagnostic FileLocation) : Prop :=
  match d with
  | Warn _ _ => True
  | Error _ _ => False
  end.

Definition isError (d : Diagnostic FileLocation) : Prop :=
  match d with
  | Warn _ _ => False
  | Error _ _ => True
  end.

Lemma filterSpec_accounting classInfos status accepted :
  ∃ kept warnings,
    foldl filterSpecStep (status, accepted) classInfos = (status ++ warnings, accepted ++ kept)
    ∧ length kept + length warnings = length classInfos
    ∧ Forall isWarning warnings.
Proof.
  revert status accepted. induction classInfos as [|c classInfos IH]; intros status accepted.
  { exists [], []. by rewrite !app_nil_r. }
  cbn [foldl]. unfold filterSpecStep at 2. cbn [fst snd].
  destruct (alreadyAccepted accepted (ci_name c) (ci_type c)).
  { destruct (IH (warn status (ci_location c) ("Duplicate class info '" +:+ ci_name c +:+ "'"))
                accepted) as (kept & warnings & -> & Hlen & Hw).
    eexists kept, (_ :: warnings). unfold warn. rewrite <- app_assoc.
    split_and!; [done|cbn; lia|by constructor]. }
  destruct (alreadyAccepted accepted (ci_name c) BaseClass
            || bool_decide (ci_type c = BaseClass) && nameAccepted accepted (ci_name c)).
  { destruct (IH (warn status (ci_location c) ("Redundant class info '" +:+ ci_name c +:+ "'"))
                accepted) as (kept & warnings & -> & Hlen & Hw).
    eexists kept, (_ :: warnings). unfold warn. rewrite <- app_assoc.
    split_and!; [done|cbn; lia|by constructor]. }
  destruct (IH status (accepted ++ [c])) as (kept & warnings & -> & Hlen & Hw).
  exists (c :: kept), warnings. rewrite <- app_assoc. split_and!; [done|cbn; lia|done].
Qed.

Lemma nameAccepted_elem accepted name :
  nameAccepted accepted name = true ↔ ∃ a, a ∈ accepted ∧ ci_name a = name.
Proof.
  unfold nameAccepted. rewrite existsb_exists. split.
  - intros (a & Hin & Ha). exists a. split; [by apply list_elem_of_In|].
    by apply bool_decide_eq_true in Ha.
  - intros (a & Hin & Ha). exists a. split; [by apply list_elem_of_In|].
    by apply bool_decide_eq_true.
Qed.

Lemma alreadyAccepted_nameAccepted accepted name type :
  alreadyAccepted accepted name type = true → nameAccepted accepted name = true.
Proof.
  unfold alreadyAccepted, nameAccepted. rewrite !existsb_exists.
  intros (a & Hin & Ha). exists a. split; [done|]. by apply andb_true_iff in Ha as [? _].
Qed.

(** A record is kept when no record accepted so far has its name. *)
Lemma filterSpecStep_new_name status accepted c :
  nameAccepted accepted (ci_name c) = false →
  filterSpecStep (status, accepted) c = (status, accepted ++ [c]).
Proof.
  intros Hnew. unfold filterSpecStep. cbn [fst snd].
  destruct (alreadyAccepted accepted (ci_name c) (ci_type c)) eqn:Hdup.
  { apply alreadyAccepted_nameAccepted in Hdup. congruence. }
  destruct (alreadyAccepted accepted (ci_name c) BaseClass) eqn:Hbase.
  { apply alreadyAccepted_nameAccepted in Hbase. congruence. }
  by rewrite Hnew, andb_false_r.
Qed.

Lemma filter_first_of_name status pre c post :
  Forall (fun a => ci_name a ≠ ci_name c) pre →
  c ∈ (filterRedundantClasses status (pre ++ c :: post)).2.
Proof.
  intros Hpre. rewrite filterRedundantClasses_spec. unfold filterRedundantClassesSpec.
  rewrite foldl_app. cbn [foldl].
  destruct (filterSpec_sublist pre status []) as (kept & warnings & -> & Hsub).
  cbn [app]. rewrite filterSpecStep_new_name.
  - destruct (filterSpec_sublist post (status ++ warnings) (kept ++ [c]))
      as (kept' & warnings' & -> & _).
    cbn [snd]. rewrite !elem_of_app, list_elem_of_singleton. tauto.
  - apply not_true_is_false. intros (a & Hin & Ha)%nameAccepted_elem.
    rewrite Forall_forall in Hpre. apply (Hpre a); [|done].
    by eapply elem_of_sublist.
Qed.

Lemma first_of_name (l : list EntityDefinitionClassInfo) c :
  c ∈ l →
  ∃ pre c' post,
    l = pre ++ c' :: post ∧ ci_name c' = ci_name c
    ∧ Forall (fun a => ci_name a ≠ ci_name c') pre.
Proof.
  induction l as [|x l IH]; [by intros ?%elem_of_nil|].
  intros Hin. destruct (decide (ci_name x = ci_name c)) as [Hx|Hx].
  { exists [], x, l. by split_and!. }
  apply elem_of_cons in Hin as [->|Hin]; [done|].
  destruct (IH Hin) as (pre & c' & post & -> & Hname & Hpre).
  exists (x :: pre), c', post. split_and!; [done|done|]. constructor; [congruence|done].
Qed.

Lemma NoDup_names_Clean (l : list EntityDefinitionClassInfo) :
  NoDup (ci_name <$> l) → Clean l.
Proof.
  unfold Clean. induction l as [|a l IH]; [constructor|].
  rewrite fmap_cons. intros [Ha Hl]%NoDup_cons. constructor; [|by apply IH].
  apply Forall_forall. intros b Hb Hname. destruct Ha. rewrite Hname.
  apply list_elem_of_fmap. by exists b.
Qed.

(** X1. Filtering what the filter returned changes nothing and reports
    nothing: the second pass that [createDefinitions] makes is harmless. *)
Theorem filter_is_idempotent status status' classInfos :
  filterRedundantClasses status' (filterRedundantClasses status classInfos).2
  = (status', (filterRedundantClasses status classInfos).2).
Proof. apply filterRedundantClasses_Clean_id, filterRedundantClasses_Clean. Qed.

(** X2. The filter accounts for every record of the input: it keeps the
    record or adds one diagnostic for it, so the records kept and the
    diagnostics added are as many as the input; what it adds are warnings, after
    what the sink held. *)
Theorem filter_accounts_for_every_record status classInfos :
  ∃ warnings,
    (filterRedundantClasses status classInfos).1 = status ++ warnings
    ∧ length (filterRedundantClasses status classInfos).2 + length warnings
      = length classInfos
    ∧ Forall isWarning warnings.
Proof.
  rewrite filterRedundantClasses_spec. unfold filterRedundantClassesSpec.
  destruct (filterSpec_accounting classInfos status []) as (kept & warnings & -> & ? & ?).
  by exists warnings.
Qed.

(** X3. The first record of each name is kept, so no name of the input is
    lost: every input record has a record of its name in the output. *)
Theorem filter_keeps_first_of_each_name status classInfos :
  (∀ pre c post,
     classInfos = pre ++ c :: post → Forall (fun a => ci_name a ≠ ci_name c) pre →
     c ∈ (filterRedundantClasses status classInfos).2)
  ∧ (∀ c, c ∈ classInfos →
       ∃ a, a ∈ (filterRedundantClasses status classInfos).2 ∧ ci_name a = ci_name c).
Proof.
  split.
  - intros pre c post -> Hpre. by apply filter_first_of_name.
  - intros c (pre & c' & post & -> & Hname & Hpre)%first_of_name.
    exists c'. split; [by apply filter_first_of_name|done].
Qed.

(** X4. A class list in which no name is repeated passes the filter whole and
    without a diagnostic. *)
Theorem filter_keeps_distinct_names status classInfos :
  NoDup (ci_name <$> classInfos) →
  filterRedundantClasses status classInfos = (status, classInfos).
Proof. intros Hnd. by apply filterRedundantClasses_Clean_id, NoDup_names_Clean. Qed.

(** ** The selector on a filtered vector *)

(** The candidates for one name are of pairwise different types, none of
    them a base class. *)
Definition overloads (a b : EntityDefinitionClassInfo) : Prop :=
  ci_type a ≠ ci_type b ∧ ci_type a ≠ BaseClass ∧ ci_type b ≠ BaseClass.

Lemma findClassInfos_overloads filteredClassInfos name :
  Clean filteredClassInfos →
  ForallOrdPairs overloads (findClassInfos filteredClassInfos name).
Proof.
  intros Hclean. unfold findClassInfos.
  apply (Clean_filter (fun c => ci_name c = name)) in Hclean.
  assert (Forall (fun c => ci_name c = name)
            (filter (fun c => ci_name c = name) filteredClassInfos)) as Hnames.
  { apply Forall_forall. by intros c [? _]%list_elem_of_filter. }
  revert Hclean Hnames. unfold Clean.
  generalize (filter (fun c => ci_name c = name) filteredClassInfos). intros l.
  induction 1 as [|a l Ha Hl IH]; [constructor|].
  intros [Hna Hnl]%Forall_cons. constructor; [|by apply IH].
  rewrite Forall_forall in *. intros b Hb. apply Ha; [done|]. by rewrite Hna, (Hnl b Hb).
Qed.

Lemma overloads_at_most_two (l : list EntityDefinitionClassInfo) :
  ForallOrdPairs overloads l → length l ≤ 2.
Proof.
  destruct l as [|a [|b [|c l]]]; cbn; try lia. intros H.
  inversion H as [|? ? Ha Hl]; subst. inversion Hl as [|? ? Hb _]; subst.
  apply Forall_cons in Ha as [(Hab & Hna & Hnb) Ha].
  apply Forall_cons in Ha as [(Hac & _ & Hnc) _].
  apply Forall_cons in Hb as [(Hbc & _ & _) _].
  by destruct (ci_type a), (ci_type b), (ci_type c).
Qed.

Lemma overloads_not_base (l : list EntityDefinitionClassInfo) :
  ForallOrdPairs overloads l → 1 < length l → Forall (fun c => ci_type c ≠ BaseClass) l.
Proof.
  destruct l as [|a [|b l]]; cbn; try lia. intros H _.
  inversion H as [|? ? Ha _]; subst. rewrite Forall_forall in Ha.
  apply Forall_forall. intros c [->|Hc]%elem_of_cons.
  - destruct (Ha b) as (_ & ? & _); [by left|done].
  - by destruct (Ha c Hc) as (_ & _ & ?).
Qed.

(** X5. On what the filter returns, a name has at most two candidates, and a
    selection among two is always the candidate of the type of the inheriting
    class: the base class of the selector's last rule is never there, and a
    base class that inherits from a name with two candidates selects none. *)
Theorem selection_on_filtered_vector status classInfos name :
  let candidates := findClassInfos (filterRedundantClasses status classInfos).2 name in
  length candidates ≤ 2
  ∧ (∀ c s, selectSuperClass c candidates = Some s →
       candidates = [s] ∨ (length candidates = 2 ∧ ci_type s = ci_type c))
  ∧ (∀ c, ci_type c = BaseClass → length candidates = 2 →
       selectSuperClass c candidates = None).
Proof.
  intros candidates.
  pose proof (findClassInfos_overloads _ name (filterRedundantClasses_Clean status classInfos))
    as Hpairs. fold candidates in Hpairs.
  pose proof (overloads_at_most_two _ Hpairs) as Hlen. split_and!; [done| |].
  - intros c s. unfold selectSuperClass. case_bool_decide as H1.
    { destruct candidates as [|x [|? ?]]; try done. intros [= ->]. by left. }
    case_bool_decide as H2; [|done].
    pose proof (overloads_not_base _ Hpairs H2) as Hnb.
    destruct (findClassInfoWithType candidates (ci_type c)) as [x|] eqn:Hsame.
    { intros [= ->]. right. apply findClassInfoWithType_Some in Hsame as [_ ?].
      split; [lia|done]. }
    case_bool_decide; [|done]. intros [Hin Hbase]%findClassInfoWithType_Some.
    rewrite Forall_forall in Hnb. by destruct (Hnb s Hin).
  - intros c Hc Hlen2. unfold selectSuperClass.
    rewrite bool_decide_eq_false_2, bool_decide_eq_true_2 by lia.
    assert (Forall (fun c => ci_type c ≠ BaseClass) candidates) as Hnb.
    { apply overloads_not_base; [done|lia]. }
    rewrite Hc. apply findClassInfoWithType_None in Hnb. rewrite Hnb.
    by rewrite bool_decide_eq_false_2 by auto.
Qed.

(** ** Further properties of the resolver *)

Lemma forEach_mono {S A : Type} (body1 body2 : S → A → option S) l :
  (∀ st x st', body1 st x = Some st' → body2 st x = Some st') →
  ∀ st st', forEach body1 st l = Some st' → forEach body2 st l = Some st'.
Proof.
  intros Hbody. induction l as [|x l IH]; intros st st'; [done|].
  intros (st1 & Hx & Hl)%forEach_cons_Some. apply forEach_cons_Some.
  exists st1. split; [by apply Hbody|by apply IH].
Qed.

Lemma inheritFromName_mono recurse1 recurse2 filteredClassInfos c st name st' :
  (∀ st1 s st2, recurse1 st1 s = Some st2 → recurse2 st1 s = Some st2) →
  inheritFromName recurse1 filteredClassInfos c st name = Some st' →
  inheritFromName recurse2 filteredClassInfos c st name = Some st'.
Proof.
  intros Hrec. unfold inheritFromName, inheritFromAndRecurse.
  destruct (selectSuperClass _ _) as [next|]; [|done]. case_bool_decide; [|done].
  destruct (recurse1 _ next) as [st2|] eqn:H1; [|done]. by rewrite (Hrec _ _ _ H1).
Qed.

(** More fuel does not change what the walk returns. *)
Lemma findSuperClassesAndInheritFrom_mono filteredClassInfos fuel :
  ∀ fuel' st c st',
    fuel ≤ fuel' →
    findSuperClassesAndInheritFrom fuel filteredClassInfos st c = Some st' →
    findSuperClassesAndInheritFrom fuel' filteredClassInfos st c = Some st'.
Proof.
  induction fuel as [|fuel IH]; intros fuel' st c st' Hle; [done|].
  destruct fuel' as [|fuel']; [lia|]. cbn [findSuperClassesAndInheritFrom].
  apply forEach_mono. intros st1 name st2. apply inheritFromName_mono.
  intros st3 s st4. apply IH. lia.
Qed.

(** X6. The walk over the super classes returns for every filtered vector,
    cyclic or not: the recursion is never deeper than the number of classes,
    so any fuel from [resolveFuel] on gives the result of
    [resolveInheritanceOf], and the path is empty again at the end. *)
Theorem walk_returns_on_every_hierarchy filteredClassInfos status inheritingClass fuel :
  resolveFuel filteredClassInfos ≤ fuel →
  ∃ st,
    findSuperClassesAndInheritFrom fuel filteredClassInfos
      (mkResolveState status inheritingClass ∅) inheritingClass = Some st
    ∧ rs_visited st = ∅
    ∧ resolveInheritanceOf filteredClassInfos status inheritingClass
      = (rs_status st, rs_inheritingClass st).
Proof.
  intros Hfuel.
  destruct (findSuperClassesAndInheritFrom_total filteredClassInfos
              (resolveFuel filteredClassInfos) (mkResolveState status inheritingClass ∅)
              inheritingClass) as (st & Hst & Hvis).
  { apply empty_subseteq. }
  { cbn. rewrite size_empty. pose proof (classNames_size filteredClassInfos).
    unfold resolveFuel. lia. }
  exists st. split_and!; [|done|].
  - by eapply findSuperClassesAndInheritFrom_mono.
  - unfold resolveInheritanceOf. by rewrite Hst.
Qed.

(** X7. Resolution changes neither the name, the type, the position nor the
    declared super classes of a class, and it never replaces a description, a
    color or a size that the class had set itself. *)
Theorem resolution_keeps_identity_and_own_attributes filteredClassInfos status c :
  let resolved := (resolveInheritanceOf filteredClassInfos status c).2 in
  ci_name resolved = ci_name c ∧ ci_type resolved = ci_type c
  ∧ ci_location resolved = ci_location c ∧ ci_superClasses resolved = ci_superClasses c
  ∧ (∀ v, ci_description c = Some v → ci_description resolved = Some v)
  ∧ (∀ v, ci_color c = Some v → ci_color resolved = Some v)
  ∧ (∀ v, ci_size c = Some v → ci_size resolved = Some v).
Proof.
  intros resolved. subst resolved.
  destruct (resolveInheritanceOf_sameIdentity filteredClassInfos status c)
    as [(Hn & Ht & Hl & Hs) _].
  destruct (resolveInheritanceOf_fuel filteredClassInfos status c) as (st & Hst & Heq).
  apply findSuperClassesAndInheritFrom_keepsSet in Hst as (Hd & Hc & Hz).
  rewrite Heq in *. cbn [snd rs_inheritingClass] in *. by split_and!.
Qed.

(** Every diagnostic that the walk adds is an error. *)
Lemma findSuperClassesAndInheritFrom_errors filteredClassInfos fuel st c st' :
  findSuperClassesAndInheritFrom fuel filteredClassInfos st c = Some st' →
  ∃ errors, rs_status st' = rs_status st ++ errors ∧ Forall isError errors.
Proof.
  apply (findSuperClassesAndInheritFrom_rel filteredClassInfos
           (fun st st' => ∃ errors, rs_status st' = rs_status st ++ errors
                                    ∧ Forall isError errors)).
  - intros ?. exists []. by rewrite app_nil_r.
  - intros st1 st2 st3 (e1 & -> & H1) (e2 & -> & H2). exists (e1 ++ e2).
    split; [by rewrite app_assoc|by apply Forall_app].
  - intros ? location message. eexists. split; [done|]. by repeat constructor.
  - intros ? ? _. exists []. by rewrite app_nil_r.
  - intros ? ?. exists []. by rewrite app_nil_r.
Qed.

(** X9. Resolving a class only adds errors to the sink, after what the sink
    held: it never warns and never removes or rewrites a diagnostic. *)
Theorem resolution_reports_only_errors filteredClassInfos status c :
  ∃ errors,
    (resolveInheritanceOf filteredClassInfos status c).1 = status ++ errors
    ∧ Forall isError errors.
Proof.
  destruct (resolveInheritanceOf_fuel filteredClassInfos status c) as (st & Hst & ->).
  by apply findSuperClassesAndInheritFrom_errors in Hst.
Qed.

(** What the second class has comes from the first class or from a class of
    the vector: the values of the three optional attributes, the keys of the
    properties, and the presence of a model or a decal definition. *)
Definition comesFrom (filteredClassInfos : list EntityDefinitionClassInfo)
    (c c' : EntityDefinitionClassInfo) : Prop :=
  (∀ v, ci_description c' = Some v →
        ci_description c = Some v ∨ ∃ s, s ∈ filteredClassInfos ∧ ci_description s = Some v)
  ∧ (∀ v, ci_color c' = Some v →
          ci_color c = Some v ∨ ∃ s, s ∈ filteredClassInfos ∧ ci_color s = Some v)
  ∧ (∀ v, ci_size c' = Some v →
          ci_size c = Some v ∨ ∃ s, s ∈ filteredClassInfos ∧ ci_size s = Some v)
  ∧ (∀ k, k ∈ keysOf (ci_propertyDefinitions c') →
          k ∈ keysOf (ci_propertyDefinitions c)
          ∨ ∃ s, s ∈ filteredClassInfos ∧ k ∈ keysOf (ci_propertyDefinitions s))
  ∧ (is_Some (ci_modelDefinition c') →
     is_Some (ci_modelDefinition c)
     ∨ ∃ s, s ∈ filteredClassInfos ∧ is_Some (ci_modelDefinition s))
  ∧ (is_Some (ci_decalDefinition c') →
     is_Some (ci_decalDefinition c)
     ∨ ∃ s, s ∈ filteredClassInfos ∧ is_Some (ci_decalDefinition s)).

Lemma comesFrom_refl filteredClassInfos c : comesFrom filteredClassInfos c c.
Proof. split_and!; auto. Qed.

Lemma comesFrom_trans filteredClassInfos c1 c2 c3 :
  comesFrom filteredClassInfos c1 c2 → comesFrom filteredClassInfos c2 c3 →
  comesFrom filteredClassInfos c1 c3.
Proof.
  intros (Hd1 & Hc1 & Hs1 & Hk1 & Hm1 & He1) (Hd2 & Hc2 & Hs2 & Hk2 & Hm2 & He2).
  split_and!.
  - intros v [?|?]%Hd2; auto.
  - intros v [?|?]%Hc2; auto.
  - intros v [?|?]%Hs2; auto.
  - intros k [?|?]%Hk2; auto.
  - intros [?|?]%Hm2; auto.
  - intros [?|?]%He2; auto.
Qed.

Lemma foldl_inheritProperty_keys_from superProperties :
  ∀ l k,
    k ∈ keysOf (foldl inheritProperty l superProperties) →
    k ∈ keysOf l ∨ k ∈ keysOf superProperties.
Proof.
  induction superProperties as [|s superProperties IH]; intros l k; [by left|].
  cbn [foldl]. intros [Hk|Hk]%IH.
  - rewrite inheritProperty_keys in Hk. rewrite keysOf_cons.
    destruct (decide (pd_key s ∈ keysOf l)); [by left|].
    apply elem_of_app in Hk as [?|Hk]; [by left|].
    apply list_elem_of_singleton in Hk as ->. right. by left.
  - right. rewrite keysOf_cons. by right.
Qed.

Lemma inheritOptional_from {A : Type} (own super : option A) v :
  inheritOptional own super = Some v → own = Some v ∨ super = Some v.
Proof. destruct own; cbn; auto. Qed.

Lemma inheritExpression_from {E : Type} `{!Expression E} (own super : option E) :
  is_Some (inheritExpression own super) → is_Some own ∨ is_Some super.
Proof. destruct own, super; cbn; auto. Qed.

Lemma inheritAttributes_comesFrom filteredClassInfos c superClass :
  superClass ∈ filteredClassInfos →
  comesFrom filteredClassInfos c (inheritAttributes c superClass).
Proof.
  intros Hin. split_and!; cbn.
  - intros v [?|?]%inheritOptional_from; [by left|right; by exists superClass].
  - intros v [?|?]%inheritOptional_from; [by left|right; by exists superClass].
  - intros v [?|?]%inheritOptional_from; [by left|right; by exists superClass].
  - intros k [?|?]%foldl_inheritProperty_keys_from; [by left|right; by exists superClass].
  - intros [?|?]%inheritExpression_from; [by left|right; by exists superClass].
  - intros [?|?]%inheritExpression_from; [by left|right; by exists superClass].
Qed.

(** X8. Resolution invents nothing: a description, a color or a size of the
    resolved class, the key of each of its properties and the presence of a
    model or decal definition come from the class itself or from a class of
    the filtered vector. *)
Theorem resolution_invents_nothing filteredClassInfos status c :
  comesFrom filteredClassInfos c (resolveInheritanceOf filteredClassInfos status c).2.
Proof.
  destruct (resolveInheritanceOf_fuel filteredClassInfos status c) as (st & Hst & ->).
  apply (findSuperClassesAndInheritFrom_rel filteredClassInfos
           (fun st st' => comesFrom filteredClassInfos (rs_inheritingClass st)
                            (rs_inheritingClass st'))) in Hst; [done|..].
  - intros ?. apply comesFrom_refl.
  - intros ? ? ?. apply comesFrom_trans.
  - intros ? ? ?. apply comesFrom_refl.
  - intros ? ? ?. by apply inheritAttributes_comesFrom.
  - intros ? ?. apply comesFrom_refl.
Qed.

(** The state with diagnostics put before those of its sink. *)
Definition prepend (earlier : ParserStatus) (st : ResolveState) : ResolveState :=
  mkResolveState (earlier ++ rs_status st) (rs_inheritingClass st) (rs_visited st).

Lemma forEach_prepend {A : Type} (body : ResolveState → A → option ResolveState) earlier l :
  (∀ st x, body (prepend earlier st) x = prepend earlier <$> body st x) →
  ∀ st, forEach body (prepend earlier st) l = prepend earlier <$> forEach body st l.
Proof.
  intros Hbody. induction l as [|x l IH]; intros st; [done|].
  cbn [forEach]. rewrite Hbody. destruct (body st x) as [st1|]; [|done]. cbn. apply IH.
Qed.

Lemma inheritFromName_prepend recurse filteredClassInfos c earlier st name :
  (∀ st1 s, recurse (prepend earlier st1) s = prepend earlier <$> recurse st1 s) →
  inheritFromName recurse filteredClassInfos c (prepend earlier st) name
  = prepend earlier <$> inheritFromName recurse filteredClassInfos c st name.
Proof.
  intros Hrec. unfold inheritFromName, inheritFromAndRecurse. cbn [prepend rs_inheritingClass
    rs_visited rs_status].
  destruct (selectSuperClass _ _) as [next|].
  - case_bool_decide.
    + change (mkResolveState (earlier ++ rs_status st)
                (inheritAttributes (rs_inheritingClass st) next)
                ({[ci_name next]} ∪ rs_visited st))
        with (prepend earlier
                (mkResolveState (rs_status st)
                   (inheritAttributes (rs_inheritingClass st) next)
                   ({[ci_name next]} ∪ rs_visited st))).
      rewrite Hrec. by destruct (recurse _ next).
    + cbn. unfold prepend, error. cbn. by rewrite app_assoc.
  - cbn. unfold prepend, error. cbn. by rewrite app_assoc.
Qed.

Lemma findSuperClassesAndInheritFrom_prepend filteredClassInfos fuel earlier :
  ∀ st c,
    findSuperClassesAndInheritFrom fuel filteredClassInfos (prepend earlier st) c
    = prepend earlier <$> findSuperClassesAndInheritFrom fuel filteredClassInfos st c.
Proof.
  induction fuel as [|fuel IH]; intros st c; [done|].
  cbn [findSuperClassesAndInheritFrom]. apply forEach_prepend.
  intros st1 name. by apply inheritFromName_prepend.
Qed.

Lemma resolveInheritanceOf_prepend filteredClassInfos status c :
  resolveInheritanceOf filteredClassInfos status c
  = (status ++ (resolveInheritanceOf filteredClassInfos [] c).1,
     (resolveInheritanceOf filteredClassInfos [] c).2).
Proof.
  unfold resolveInheritanceOf.
  replace (mkResolveState status c ∅) with (prepend status (mkResolveState [] c ∅))
    by (unfold prepend; cbn; by rewrite app_nil_r).
  rewrite findSuperClassesAndInheritFrom_prepend.
  destruct (findSuperClassesAndInheritFrom _ _ (mkResolveState [] c ∅) c) as [st|]; cbn.
  - done.
  - by rewrite app_nil_r.
Qed.

Lemma mapWithStatus_independent {A B : Type} (f : ParserStatus → A → ParserStatus * B) l :
  (∀ status x, f status x = (status ++ (f [] x).1, (f [] x).2)) →
  ∀ status,
    mapWithStatus f status l
    = (status ++ concat ((fun x => (f [] x).1) <$> l), (fun x => (f [] x).2) <$> l).
Proof.
  intros Hf. induction l as [|x l IH]; intros status; cbn.
  { by rewrite app_nil_r. }
  rewrite (Hf status x), IH. by rewrite <- app_assoc.
Qed.

(** X10. What a class resolves to does not depend on the sink: the resolved
    record is the same whatever was reported before, and the diagnostics added
    are the same. So [resolveInheritance] returns the filter's warnings, then
    the errors of each point or brush class in order, and the records that the
    classes resolve to one by one. *)
Theorem resolution_ignores_the_sink status classInfos :
  (∀ filteredClassInfos c,
     resolveInheritanceOf filteredClassInfos status c
     = (status ++ (resolveInheritanceOf filteredClassInfos [] c).1,
        (resolveInheritanceOf filteredClassInfos [] c).2))
  ∧ (let filtered := (filterRedundantClasses status classInfos).2 in
     let concrete := filter (fun c => ci_type c ≠ BaseClass) filtered in
     resolveInheritance status classInfos
     = ((filterRedundantClasses status classInfos).1
        ++ concat ((fun c => (resolveInheritanceOf filtered [] c).1) <$> concrete),
        (fun c => (resolveInheritanceOf filtered [] c).2) <$> concrete)).
Proof.
  split; [intros; apply resolveInheritanceOf_prepend|].
  cbn zeta. unfold resolveInheritance.
  destruct (filterRedundantClasses status classInfos) as [status1 filtered]. cbn [fst snd].
  apply mapWithStatus_independent. intros. apply resolveInheritanceOf_prepend.
Qed.

(** ** Further properties of the attribute merge *)

(** A flags definition with the reserved key: the one property that a merge
    may replace. *)
Definition isSpawnflags (p : PropertyDefinition) : Prop :=
  pd_type p = FlagsProperty ∧ pd_key p = Spawnflags.

(** The slots of the first list are still there in the second, with their key
    and type, and unchanged unless they are spawnflags. *)
Definition slotsKept (l l' : list PropertyDefinition) : Prop :=
  ∀ i p, l !! i = Some p →
    ∃ p', l' !! i = Some p' ∧ pd_key p' = pd_key p ∧ pd_type p' = pd_type p
          ∧ (¬ isSpawnflags p → p' = p).

Lemma slotsKept_refl l : slotsKept l l.
Proof. intros i p Hp. by exists p. Qed.

Lemma slotsKept_trans l1 l2 l3 : slotsKept l1 l2 → slotsKept l2 l3 → slotsKept l1 l3.
Proof.
  intros H12 H23 i p Hp. destruct (H12 i p Hp) as (p2 & Hp2 & Hk2 & Ht2 & Hs2).
  destruct (H23 i p2 Hp2) as (p3 & Hp3 & Hk3 & Ht3 & Hs3).
  exists p3. split_and!; [done|congruence|congruence|].
  intros Hns. rewrite Hs3, Hs2; [done|done|]. rewrite (Hs2 Hns). done.
Qed.

Lemma merged_slot_kept a s :
  pd_key (default a (mergeAttributes a s)) = pd_key a
  ∧ pd_type (default a (mergeAttributes a s)) = pd_type a
  ∧ (¬ isSpawnflags a → default a (mergeAttributes a s) = a).
Proof.
  rewrite mergeAttributes_spec. destruct (decide (bothSpawnflags a s)) as [Hb|Hb]; [|done].
  destruct Hb as (_ & Ht & _ & Hk). cbn. split_and!; [done|done|]. by intros [].
Qed.

Lemma inheritProperty_slotsKept l s : slotsKept l (inheritProperty l s).
Proof.
  induction l as [|a l IH]; [by intros i p ?|].
  rewrite inheritProperty_cons. destruct (decide (pd_key a = pd_key s)) as [Hk|Hk].
  - intros [|i] p Hp; cbn in *.
    + injection Hp as <-. eexists. split; [done|]. apply merged_slot_kept.
    + by exists p.
  - intros [|i] p Hp; cbn in *.
    + by exists p.
    + by apply IH.
Qed.

Lemma foldl_inheritProperty_slotsKept superProperties :
  ∀ l, slotsKept l (foldl inheritProperty l superProperties).
Proof.
  induction superProperties as [|s superProperties IH]; intros l; [apply slotsKept_refl|].
  cbn [foldl]. eapply slotsKept_trans; [apply inheritProperty_slotsKept|apply IH].
Qed.

(** X11. The properties that a class declares keep their places through the
    whole resolution: at each position of its list the resolved class has a
    property of the same key and type, and the very same property unless it is
    the spawnflags. What is inherited comes after them. *)
Theorem own_properties_stay_in_place filteredClassInfos status c :
  slotsKept (ci_propertyDefinitions c)
    (ci_propertyDefinitions (resolveInheritanceOf filteredClassInfos status c).2).
Proof.
  destruct (resolveInheritanceOf_fuel filteredClassInfos status c) as (st & Hst & ->).
  apply (findSuperClassesAndInheritFrom_rel filteredClassInfos
           (fun st st' => slotsKept (ci_propertyDefinitions (rs_inheritingClass st))
                            (ci_propertyDefinitions (rs_inheritingClass st')))) in Hst;
    [done|..].
  - intros ?. apply slotsKept_refl.
  - intros ? ? ?. apply slotsKept_trans.
  - intros ? ? ?. apply slotsKept_refl.
  - intros ? ? _. cbn. apply foldl_inheritProperty_slotsKept.
  - intros ? ?. apply slotsKept_refl.
Qed.

Lemma StronglySorted_seqZ (k : nat) : ∀ m, StronglySorted Z.lt (seqZ m (Z.of_nat k)).
Proof.
  induction k as [|k IH]; intros m; [constructor|].
  rewrite seqZ_cons by lia. replace (Z.pred (Z.of_nat (S k))) with (Z.of_nat k) by lia.
  constructor; [apply IH|]. apply Forall_seqZ. lia.
Qed.

Lemma length_omap_le {A B : Type} (f : A → option B) (l : list A) :
  length (omap f l) ≤ length l.
Proof. induction l as [|x l IH]; cbn; [done|]. destruct (f x); cbn; lia. Qed.

Lemma option_of_elem d value o : option_of d value = Some o → o ∈ pd_options d.
Proof.
  unfold option_of. destruct (list_find _ _) as [[i x]|] eqn:Hfind; [|done].
  intros [= <-]. apply list_find_Some in Hfind as (Hx & _). by eapply list_elem_of_lookup_2.
Qed.

Lemma bitOption_elem inheriting super i o :
  bitOption inheriting super i = Some o → o ∈ pd_options inheriting ∨ o ∈ pd_options super.
Proof.
  unfold bitOption. destruct (option_of inheriting _) eqn:Hown.
  - intros [= <-]. left. by eapply option_of_elem.
  - intros ?. right. by eapply option_of_elem.
Qed.

Lemma omap_bitOption_sorted inheriting super positions :
  StronglySorted Z.lt positions → Forall (fun j => (0 ≤ j)%Z) positions →
  StronglySorted Z.lt (flag_value <$> omap (bitOption inheriting super) positions).
Proof.
  induction 1 as [|i positions Hsorted IH Hlt]; [constructor|].
  intros [Hi Hpos]%Forall_cons. cbn [omap list_omap].
  destruct (bitOption inheriting super i) as [o|] eqn:Hbit; [|by apply IH].
  rewrite fmap_cons. constructor; [by apply IH|].
  apply Forall_forall. intros v (o' & -> & Ho')%list_elem_of_fmap.
  apply list_elem_of_omap in Ho' as (j & Hj & Hbitj).
  rewrite (bitOption_value _ _ _ _ Hbit), (bitOption_value _ _ _ _ Hbitj).
  rewrite Forall_forall in Hlt, Hpos. specialize (Hlt j Hj). specialize (Hpos j Hj).
  rewrite !Z.shiftl_1_l. apply Z.pow_lt_mono_r; lia.
Qed.

(** X12. What a merge of two spawnflags definitions returns keeps the key,
    and holds at most 24 options, each taken as it is from one of the two
    sides, with values that are single bits below 1<<24 in strictly increasing
    order: an option whose value is no such bit, and a second option for a
    bit, are dropped. *)
Theorem merged_flags_are_single_bits own super merged :
  mergeAttributes own super = Some merged →
  pd_key merged = pd_key own ∧ pd_type merged = FlagsProperty
  ∧ length (pd_options merged) ≤ 24
  ∧ StronglySorted Z.lt (flag_value <$> pd_options merged)
  ∧ Forall (fun o => (∃ i, (0 ≤ i < 24)%Z ∧ flag_value o = Z.shiftl 1 i)
                     ∧ (o ∈ pd_options own ∨ o ∈ pd_options super))
      (pd_options merged).
Proof.
  rewrite mergeAttributes_spec. case_decide; [|done]. intros [= <-].
  cbn [perBitMerge pd_key pd_type pd_options]. split_and!; [done|done| | |].
  - etrans; [apply length_omap_le|]. by rewrite length_seqZ.
  - apply omap_bitOption_sorted.
    + apply (StronglySorted_seqZ 24 0).
    + apply Forall_seqZ. lia.
  - apply Forall_forall. intros o (i & Hi%elem_of_seqZ & Hbit)%list_elem_of_omap. split.
    + exists i. split; [lia|by eapply bitOption_value].
    + by eapply bitOption_elem.
Qed.

(** ** Walks over small hierarchies *)

Lemma inheritFromName_missing recurse filteredClassInfos classWithSuperClasses st name :
  findClassInfos filteredClassInfos name = [] →
  inheritFromName recurse filteredClassInfos classWithSuperClasses st name
  = Some (mkResolveState
            (rs_status st
             ++ [Error (ci_location classWithSuperClasses)
                   ("No matching super class found for '" +:+ name +:+ "'")])
            (rs_inheritingClass st) (rs_visited st)).
Proof. intros Hfind. unfold inheritFromName, selectSuperClass. by rewrite Hfind. Qed.

(** The walk from a class that inherits a shared ancestor by two ways. *)
Lemma diamond_walk filteredClassInfos fuel status X L R T st :
  ci_superClasses X = [ci_name L; ci_name R] →
  ci_superClasses L = [ci_name T] →
  ci_superClasses R = [ci_name T] →
  ci_superClasses T = [] →
  findClassInfos filteredClassInfos (ci_name L) = [L] →
  findClassInfos filteredClassInfos (ci_name R) = [R] →
  findClassInfos filteredClassInfos (ci_name T) = [T] →
  ci_name L ≠ ci_name R → ci_name L ≠ ci_name T → ci_name R ≠ ci_name T →
  findSuperClassesAndInheritFrom fuel filteredClassInfos (mkResolveState status X ∅) X
  = Some st →
  rs_status st = status
  ∧ rs_inheritingClass st
    = inheritAttributes (inheritAttributes (inheritAttributes (inheritAttributes X L) T) R) T.
Proof.
  intros HX HL HR HT HfL HfR HfT Hlr Hlt Hrt.
  destruct fuel as [|fuel]; [done|]. cbn [findSuperClassesAndInheritFrom]. rewrite HX.
  intros (st1 & Hst1 & Hrest)%forEach_cons_Some.
  rewrite (inheritFromName_single _ _ _ _ _ L) in Hst1 by done.
  apply inheritFromAndRecurse_fresh in Hst1 as (st2 & Hst2 & ->); [|set_solver].
  destruct fuel as [|fuel]; [done|]. cbn [findSuperClassesAndInheritFrom] in Hst2, Hrest.
  rewrite HL in Hst2.
  rewrite forEach_singleton_Some, (inheritFromName_single _ _ _ _ _ T) in Hst2 by done.
  apply inheritFromAndRecurse_fresh in Hst2 as (st3 & Hst3 & ->); [|cbn; set_solver].
  destruct fuel as [|fuel]; [done|]. cbn [findSuperClassesAndInheritFrom] in Hst3, Hrest.
  rewrite HT in Hst3. cbn [forEach] in Hst3. injection Hst3 as <-.
  cbn [rs_status rs_inheritingClass rs_visited] in Hrest.
  rewrite forEach_singleton_Some, (inheritFromName_single _ _ _ _ _ R) in Hrest by done.
  apply inheritFromAndRecurse_fresh in Hrest as (st4 & Hst4 & ->); [|cbn; set_solver].
  cbn [rs_status rs_inheritingClass rs_visited] in Hst4. rewrite HR in Hst4.
  rewrite forEach_singleton_Some, (inheritFromName_single _ _ _ _ _ T) in Hst4 by done.
  apply inheritFromAndRecurse_fresh in Hst4 as (st5 & Hst5 & ->); [|cbn; set_solver].
  rewrite HT in Hst5. cbn [forEach] in Hst5. by injection Hst5 as <-.
Qed.

(** X13. A diamond is no cycle. When X inherits from L and from R and both
    inherit from T, the names being different and each with one candidate,
    nothing is reported, and T is merged into X twice, once after L and once
    after R: the names on the path are forgotten on the way back. *)
Theorem diamond_is_not_a_cycle filteredClassInfos status X L R T :
  ci_superClasses X = [ci_name L; ci_name R] →
  ci_superClasses L = [ci_name T] →
  ci_superClasses R = [ci_name T] →
  ci_superClasses T = [] →
  findClassInfos filteredClassInfos (ci_name L) = [L] →
  findClassInfos filteredClassInfos (ci_name R) = [R] →
  findClassInfos filteredClassInfos (ci_name T) = [T] →
  ci_name L ≠ ci_name R → ci_name L ≠ ci_name T → ci_name R ≠ ci_name T →
  resolveInheritanceOf filteredClassInfos status X
  = (status,
     inheritAttributes (inheritAttributes (inheritAttributes (inheritAttributes X L) T) R) T).
Proof.
  intros HX HL HR HT HfL HfR HfT Hlr Hlt Hrt.
  destruct (resolveInheritanceOf_fuel filteredClassInfos status X) as (st & Hst & ->).
  by destruct (diamond_walk _ _ _ _ _ _ _ _ HX HL HR HT HfL HfR HfT Hlr Hlt Hrt Hst)
    as [-> ->].
Qed.


(** X15. A class that declares itself as its super class is merged into its
    own copy once, and then the cycle is reported once: the path holds the
    super classes entered, not the class that is resolved. *)
Theorem self_inheritance_is_reported_once filteredClassInfos status X :
  ci_superClasses X = [ci_name X] →
  findClassInfos filteredClassInfos (ci_name X) = [X] →
  resolveInheritanceOf filteredClassInfos status X
  = (status ++ [Error (ci_location X) cycleMessage], inheritAttributes X X).
Proof.
  intros HX HfX.
  destruct (resolveInheritanceOf_fuel filteredClassInfos status X) as (st & Hst & ->).
  unfold resolveFuel in Hst. cbn [findSuperClassesAndInheritFrom] in Hst. rewrite HX in Hst.
  rewrite forEach_singleton_Some, (inheritFromName_single _ _ _ _ _ X) in Hst by done.
  apply inheritFromAndRecurse_fresh in Hst as (st2 & Hst2 & ->); [|cbn; set_solver].
  destruct (length filteredClassInfos) as [|n] eqn:Hlen.
  { apply nil_length_inv in Hlen. subst. done. }
  cbn [findSuperClassesAndInheritFrom] in Hst2. rewrite HX in Hst2.
  rewrite forEach_singleton_Some, (inheritFromName_single _ _ _ _ _ X) in Hst2 by done.
  rewrite inheritFromAndRecurse_cycle in Hst2 by (cbn; set_solver).
  by injection Hst2 as <-.
Qed.

(** ** The materializer after the resolution *)

Lemma omap_createDefinition (defaultEntityColor : Color) resolved :
  Forall (fun c => ci_type c ≠ BaseClass) resolved →
  Forall2 (fun c d => createDefinition c defaultEntityColor = Some d) resolved
    (omap (fun c => createDefinition c defaultEntityColor) resolved).
Proof.
  induction 1 as [|c l Hc Hl IH]; [constructor|]. cbn [omap list_omap].
  destruct (createDefinition c defaultEntityColor) as [d|] eqn:Hd.
  - by constructor.
  - unfold createDefinition in Hd. by destruct (ci_type c).
Qed.

(** X22. [createDefinitions] is [resolveInheritance] followed by the
    materializer: it leaves the sink as [resolveInheritance] does, so that
    its own pass of the filter and the materializer report nothing, and it
    returns the definition of each resolved class, in order; no resolved class
    is without one. *)
Theorem createDefinitions_materializes_the_resolution status classInfos
    (defaultEntityColor : Color) :
  (createDefinitions status classInfos defaultEntityColor).1
  = (resolveInheritance status classInfos).1
  ∧ Forall2 (fun c d => createDefinition c defaultEntityColor = Some d)
      (resolveInheritance status classInfos).2
      (createDefinitions status classInfos defaultEntityColor).2.
Proof.
  rewrite createDefinitions_spec. split; [done|]. cbn [snd]. apply omap_createDefinition.
  destruct (resolveInheritance_spec status classInfos) as [Hres _].
  eapply same_keys_nonBase; [|apply filter_nonBase_Forall].
  eapply Forall2_impl; [exact Hres|]. intros a b (Hn & Ht & _). by rewrite Hn, Ht.
Qed.

(** ** The walk along the paths of the hierarchy *)

(** A path of super classes from [start] on: each class is the one selected,
    for the inheriting class, among the candidates of a name that the class
    before it declares. *)
Fixpoint selectedPath (filteredClassInfos : list EntityDefinitionClassInfo)
    (inheritingClass start : EntityDefinitionClassInfo)
    (path : list EntityDefinitionClassInfo) : Prop :=
  match path with
  | [] => True
  | superClass :: rest =>
      (∃ name, name ∈ ci_superClasses start
               ∧ selectSuperClass inheritingClass (findClassInfos filteredClassInfos name)
                 = Some superClass)
      ∧ selectedPath filteredClassInfos inheritingClass superClass rest
  end.

(** The class at the end of a path, which is [start] when the path is empty. *)
Definition pathEnd (start : EntityDefinitionClassInfo) (path : list EntityDefinitionClassInfo)
    : EntityDefinitionClassInfo :=
  default start (last path).

(** What a walk leaves as it is: the names on the path, and the type and the
    position of the inheriting class; the sink only grows. *)
Definition walkFrame (st st' : ResolveState) : Prop :=
  rs_visited st' = rs_visited st
  ∧ ci_type (rs_inheritingClass st') = ci_type (rs_inheritingClass st)
  ∧ ci_location (rs_inheritingClass st') = ci_location (rs_inheritingClass st)
  ∧ grows (rs_status st) (rs_status st').

(** The diagnostics of the four recoverable issues. *)
Definition duplicateWarning (classInfo : EntityDefinitionClassInfo) : Diagnostic FileLocation :=
  Warn (ci_location classInfo) ("Duplicate class info '" +:+ ci_name classInfo +:+ "'").

Definition redundantWarning (classInfo : EntityDefinitionClassInfo) : Diagnostic FileLocation :=
  Warn (ci_location classInfo) ("Redundant class info '" +:+ ci_name classInfo +:+ "'").

Definition missingSuperClassError (classWithSuperClasses : EntityDefinitionClassInfo)
    (name : string) : Diagnostic FileLocation :=
  Error (ci_location classWithSuperClasses)
    ("No matching super class found for '" +:+ name +:+ "'").

Definition cycleError (inheritingClass : EntityDefinitionClassInfo) : Diagnostic FileLocation :=
  Error (ci_location inheritingClass) cycleMessage.

Lemma selectSuperClass_type c1 c2 candidates :
  ci_type c1 = ci_type c2 → selectSuperClass c1 candidates = selectSuperClass c2 candidates.
Proof. intros Ht. unfold selectSuperClass. by rewrite Ht. Qed.

Lemma pathEnd_cons start superClass rest :
  pathEnd start (superClass :: rest) = pathEnd superClass rest.
Proof. unfold pathEnd. rewrite last_cons. by destruct (last rest). Qed.

Lemma selectedPath_snoc filteredClassInfos inheritingClass path :
  ∀ start superClass,
    selectedPath filteredClassInfos inheritingClass start (path ++ [superClass])
    ↔ selectedPath filteredClassInfos inheritingClass start path
      ∧ ∃ name, name ∈ ci_superClasses (pathEnd start path)
                ∧ selectSuperClass inheritingClass (findClassInfos filteredClassInfos name)
                  = Some superClass.
Proof.
  induction path as [|s path IH]; intros start superClass.
  - cbn. unfold pathEnd. cbn. tauto.
  - rewrite pathEnd_cons. cbn [app selectedPath]. rewrite IH. tauto.
Qed.

Lemma walkFrame_refl st : walkFrame st st.
Proof. split_and!; [done..|apply grows_refl]. Qed.

Lemma walkFrame_trans st1 st2 st3 : walkFrame st1 st2 → walkFrame st2 st3 → walkFrame st1 st3.
Proof.
  intros (? & ? & ? & ?) (? & ? & ? & ?).
  split_and!; [congruence..|by eapply grows_trans].
Qed.

Lemma inheritFromName_walkFrame recurse filteredClassInfos c st name st' :
  (∀ st1 s st2, recurse st1 s = Some st2 → walkFrame st1 st2) →
  inheritFromName recurse filteredClassInfos c st name = Some st' → walkFrame st st'.
Proof.
  intros Hrec. unfold inheritFromName. destruct (selectSuperClass _ _) as [next|].
  - unfold inheritFromAndRecurse. case_bool_decide as Hfresh.
    + destruct (recurse _ next) as [st2|] eqn:Hst2; [|done]. intros [= <-].
      apply Hrec in Hst2 as (Hv & Ht & Hl & Hg). cbn in *.
      split_and!; [rewrite Hv; set_solver|done..].
    + intros [= <-]. split_and!; [done..|]. by eexists.
  - intros [= <-]. split_and!; [done..|]. by eexists.
Qed.

Lemma findSuperClassesAndInheritFrom_walkFrame filteredClassInfos fuel :
  ∀ st c st',
    findSuperClassesAndInheritFrom fuel filteredClassInfos st c = Some st' → walkFrame st st'.
Proof.
  induction fuel as [|fuel IH]; [done|]. intros st c st'. cbn.
  apply forEach_rel; [apply walkFrame_refl|apply walkFrame_trans|].
  intros st1 name st2 _. by apply inheritFromName_walkFrame.
Qed.

Lemma forEach_inheritFromName_walkFrame filteredClassInfos fuel c st names st' :
  forEach
    (inheritFromName (findSuperClassesAndInheritFrom fuel filteredClassInfos)
       filteredClassInfos c) st names = Some st' →
  walkFrame st st'.
Proof.
  apply forEach_rel; [apply walkFrame_refl|apply walkFrame_trans|].
  intros st1 name st2 _. apply inheritFromName_walkFrame.
  apply findSuperClassesAndInheritFrom_walkFrame.
Qed.

Lemma forEach_app_Some {S A : Type} (body : S → A → option S) l1 l2 st' :
  ∀ st,
    forEach body st (l1 ++ l2) = Some st'
    ↔ ∃ st1, forEach body st l1 = Some st1 ∧ forEach body st1 l2 = Some st'.
Proof.
  induction l1 as [|x l1 IH]; intros st; cbn.
  - split; [by exists st|by intros (? & [= <-] & ?)].
  - destruct (body st x) as [st1|]; [apply IH|]. split; [done|by intros (? & ? & ?)].
Qed.

(** The loop over the declared names comes to each of them, with the path,
    the type and the position as they were when the loop began. *)
Lemma walk_step filteredClassInfos fuel c st names st' name :
  forEach
    (inheritFromName (findSuperClassesAndInheritFrom fuel filteredClassInfos)
       filteredClassInfos c) st names = Some st' →
  name ∈ names →
  ∃ st1 st2,
    walkFrame st st1
    ∧ inheritFromName (findSuperClassesAndInheritFrom fuel filteredClassInfos)
        filteredClassInfos c st1 name = Some st2
    ∧ walkFrame st2 st'.
Proof.
  intros Hloop (l1 & l2 & ->)%list_elem_of_split.
  apply forEach_app_Some in Hloop as (st1 & Hl1 & Hloop).
  apply forEach_cons_Some in Hloop as (st2 & Hname & Hl2).
  exists st1, st2. split_and!; [|done|].
  - by apply forEach_inheritFromName_walkFrame in Hl1.
  - by apply forEach_inheritFromName_walkFrame in Hl2.
Qed.

(** A declared name whose selected class is on the path: the cycle is
    reported at the inheriting class. *)
Lemma walk_reports_cycle filteredClassInfos inheritingClass fuel st start st' name superClass :
  findSuperClassesAndInheritFrom fuel filteredClassInfos st start = Some st' →
  ci_type (rs_inheritingClass st) = ci_type inheritingClass →
  name ∈ ci_superClasses start →
  selectSuperClass inheritingClass (findClassInfos filteredClassInfos name) = Some superClass →
  ci_name superClass ∈ rs_visited st →
  ∃ added, rs_status st' = rs_status st ++ added
           ∧ Error (ci_location (rs_inheritingClass st)) cycleMessage ∈ added.
Proof.
  intros Hwalk Htype Hname Hsel Hin. destruct fuel as [|fuel]; [done|].
  cbn [findSuperClassesAndInheritFrom] in Hwalk.
  destruct (walk_step _ _ _ _ _ _ _ Hwalk Hname)
    as (st1 & st2 & (Hv & Ht & Hl & [m1 Hm1]) & Hstep & (_ & _ & _ & [m2 Hm2])).
  unfold inheritFromName in Hstep.
  rewrite (selectSuperClass_type _ inheritingClass), Hsel in Hstep by congruence.
  rewrite inheritFromAndRecurse_cycle in Hstep by (by rewrite Hv).
  injection Hstep as <-. cbn in Hm2. unfold error in Hm2.
  exists (m1 ++ [Error (ci_location (rs_inheritingClass st)) cycleMessage] ++ m2). split.
  - rewrite Hm2, Hm1, Hl. by rewrite <- !app_assoc.
  - rewrite !elem_of_app, list_elem_of_singleton. auto.
Qed.

(** A declared name for which no class is selected: the error is reported at
    the class that declares the name. *)
Lemma walk_reports_missing filteredClassInfos inheritingClass fuel st start st' name :
  findSuperClassesAndInheritFrom fuel filteredClassInfos st start = Some st' →
  ci_type (rs_inheritingClass st) = ci_type inheritingClass →
  name ∈ ci_superClasses start →
  selectSuperClass inheritingClass (findClassInfos filteredClassInfos name) = None →
  ∃ added, rs_status st' = rs_status st ++ added
           ∧ missingSuperClassError start name ∈ added.
Proof.
  intros Hwalk Htype Hname Hsel. destruct fuel as [|fuel]; [done|].
  cbn [findSuperClassesAndInheritFrom] in Hwalk.
  destruct (walk_step _ _ _ _ _ _ _ Hwalk Hname)
    as (st1 & st2 & (Hv & Ht & Hl & [m1 Hm1]) & Hstep & (_ & _ & _ & [m2 Hm2])).
  unfold inheritFromName in Hstep.
  rewrite (selectSuperClass_type _ inheritingClass), Hsel in Hstep by congruence.
  injection Hstep as <-. cbn in Hm2. unfold error in Hm2.
  exists (m1 ++ [missingSuperClassError start name] ++ m2). split.
  - rewrite Hm2, Hm1. by rewrite <- !app_assoc.
  - rewrite !elem_of_app, list_elem_of_singleton. auto.
Qed.

(** The walk goes down every path on which no name is met twice: it comes to
    the class at its end with the names of the path on the path. *)
Lemma walk_reaches filteredClassInfos inheritingClass path :
  ∀ fuel st start st',
    findSuperClassesAndInheritFrom fuel filteredClassInfos st start = Some st' →
    ci_type (rs_inheritingClass st) = ci_type inheritingClass →
    selectedPath filteredClassInfos inheritingClass start path →
    NoDup (ci_name <$> path) →
    Forall (fun s => ci_name s ∉ rs_visited st) path →
    ∃ fuel' stA stB,
      findSuperClassesAndInheritFrom fuel' filteredClassInfos stA (pathEnd start path)
      = Some stB
      ∧ ci_type (rs_inheritingClass stA) = ci_type inheritingClass
      ∧ ci_location (rs_inheritingClass stA) = ci_location (rs_inheritingClass st)
      ∧ rs_visited stA = list_to_set (ci_name <$> path) ∪ rs_visited st
      ∧ grows (rs_status st) (rs_status stA)
      ∧ grows (rs_status stB) (rs_status st').
Proof.
  induction path as [|s path IH]; intros fuel st start st' Hwalk Htype Hpath Hnodup Hfresh.
  { exists fuel, st, st'. split_and!; [done|done|done|set_solver|apply grows_refl..]. }
  destruct Hpath as [(name & Hname & Hsel) Hpath].
  apply Forall_cons in Hfresh as [Hs Hfresh].
  rewrite fmap_cons in Hnodup. apply NoDup_cons in Hnodup as [Hnotin Hnodup].
  destruct fuel as [|fuel]; [done|]. cbn [findSuperClassesAndInheritFrom] in Hwalk.
  destruct (walk_step _ _ _ _ _ _ _ Hwalk Hname)
    as (st1 & st2 & (Hv & Ht & Hl & Hg1) & Hstep & (_ & _ & _ & Hg2)).
  unfold inheritFromName in Hstep.
  rewrite (selectSuperClass_type _ inheritingClass), Hsel in Hstep by congruence.
  apply inheritFromAndRecurse_fresh in Hstep as (st3 & Hst3 & ->); [|by rewrite Hv].
  destruct (IH _ _ _ _ Hst3) as (fuel' & stA & stB & HA & HtA & HlA & HvA & HgA & HgB).
  { cbn. congruence. }
  { done. }
  { done. }
  { cbn. rewrite Hv. apply Forall_forall. intros x Hx.
    rewrite Forall_forall in Hfresh. specialize (Hfresh x Hx).
    assert (ci_name x ≠ ci_name s).
    { intros Heq. apply Hnotin. rewrite <- Heq. by apply list_elem_of_fmap_2. }
    set_solver. }
  exists fuel', stA, stB. rewrite pathEnd_cons. cbn in *. split_and!.
  - done.
  - done.
  - congruence.
  - rewrite HvA, Hv. set_solver.
  - by eapply grows_trans.
  - by eapply grows_trans.
Qed.

(** A hierarchy with a cycle: on some path of selected super classes, the
    name of a class is met again. Resolving the class reports it. *)
Lemma resolveInheritanceOf_reports_cycle filteredClassInfos c path superClass :
  selectedPath filteredClassInfos c c (path ++ [superClass]) →
  NoDup (ci_name <$> path) →
  ci_name superClass ∈ ci_name <$> path →
  cycleError c ∈ (resolveInheritanceOf filteredClassInfos [] c).1.
Proof.
  intros [Hpath (name & Hname & Hsel)]%selectedPath_snoc Hnodup Hin.
  destruct (resolveInheritanceOf_fuel filteredClassInfos [] c) as (st & Hst & ->).
  destruct (walk_reaches _ _ _ _ _ _ _ Hst eq_refl Hpath Hnodup)
    as (fuel' & stA & stB & HA & HtA & HlA & HvA & [before HgA] & [after HgB]).
  { apply Forall_forall. set_solver. }
  destruct (walk_reports_cycle _ _ _ _ _ _ _ _ HA HtA Hname Hsel) as (added & Hadded & Herr).
  { rewrite HvA. set_solver. }
  cbn in *. rewrite HgB, Hadded, HgA. unfold cycleError. rewrite <- HlA.
  rewrite !elem_of_app. auto.
Qed.

(** A declared super class that is missing, anywhere in the hierarchy:
    resolving the class reports it at the class that declares the name. *)
Lemma resolveInheritanceOf_reports_missing filteredClassInfos c path name :
  selectedPath filteredClassInfos c c path →
  NoDup (ci_name <$> path) →
  name ∈ ci_superClasses (pathEnd c path) →
  selectSuperClass c (findClassInfos filteredClassInfos name) = None →
  missingSuperClassError (pathEnd c path) name
  ∈ (resolveInheritanceOf filteredClassInfos [] c).1.
Proof.
  intros Hpath Hnodup Hname Hsel.
  destruct (resolveInheritanceOf_fuel filteredClassInfos [] c) as (st & Hst & ->).
  destruct (walk_reaches _ _ _ _ _ _ _ Hst eq_refl Hpath Hnodup)
    as (fuel' & stA & stB & HA & HtA & HlA & HvA & [before HgA] & [after HgB]).
  { apply Forall_forall. set_solver. }
  destruct (walk_reports_missing _ _ _ _ _ _ _ HA HtA Hname Hsel) as (added & Hadded & Herr).
  cbn in *. rewrite HgB, Hadded, HgA. rewrite !elem_of_app. auto.
Qed.

(** ** What the redundancy filter reports *)

(** The sink after the filter, seen from one record of the input: what was
    reported for the records before it, then what the step reports for it on
    the records accepted so far, then what is reported for the records after
    it. *)
Lemma filterRedundantClasses_at status pre c post :
  ∃ before after,
    (filterRedundantClasses status (pre ++ c :: post)).1
    = (filterSpecStep (status ++ before, (filterRedundantClasses status pre).2) c).1 ++ after.
Proof.
  rewrite !filterRedundantClasses_spec. unfold filterRedundantClassesSpec.
  rewrite foldl_app. cbn [foldl].
  destruct (filterSpec_accounting pre status []) as (kept & before & -> & _).
  exists before. cbn [snd].
  destruct (filterSpecStep (status ++ before, [] ++ kept) c) as [status2 accepted2].
  destruct (filterSpec_accounting post status2 accepted2) as (kept' & after & -> & _).
  by exists after.
Qed.

Lemma filter_reports_duplicate status pre c post :
  alreadyAccepted (filterRedundantClasses status pre).2 (ci_name c) (ci_type c) = true →
  ∃ before after,
    (filterRedundantClasses status (pre ++ c :: post)).1
    = status ++ before ++ [duplicateWarning c] ++ after.
Proof.
  intros Hdup. destruct (filterRedundantClasses_at status pre c post) as (before & after & ->).
  exists before, after. unfold filterSpecStep. cbn [fst snd]. rewrite Hdup. cbn [fst].
  unfold warn, duplicateWarning. by rewrite <- !app_assoc.
Qed.

Lemma filter_reports_redundant status pre c post :
  alreadyAccepted (filterRedundantClasses status pre).2 (ci_name c) (ci_type c) = false →
  alreadyAccepted (filterRedundantClasses status pre).2 (ci_name c) BaseClass
  || bool_decide (ci_type c = BaseClass)
     && nameAccepted (filterRedundantClasses status pre).2 (ci_name c) = true →
  ∃ before after,
    (filterRedundantClasses status (pre ++ c :: post)).1
    = status ++ before ++ [redundantWarning c] ++ after.
Proof.
  intros Hnew Hred.
  destruct (filterRedundantClasses_at status pre c post) as (before & after & ->).
  exists before, after. unfold filterSpecStep. cbn [fst snd]. rewrite Hnew, Hred. cbn [fst].
  unfold warn, redundantWarning. by rewrite <- !app_assoc.
Qed.

(** ** The entry point *)

Lemma elem_of_concat_fmap {A B : Type} (f : A → list B) (l : list A) x e :
  x ∈ l → e ∈ f x → e ∈ concat (f <$> l).
Proof.
  intros Hx He. induction l as [|y l IH]; [by apply elem_of_nil in Hx|].
  cbn. apply elem_of_app. apply elem_of_cons in Hx as [->|Hx]; [by left|right; by apply IH].
Qed.

(** The sink after [createDefinitions]: what the filter leaves, then what the
    resolution of each point or brush class adds, in order. *)
Lemma createDefinitions_sink status classInfos (defaultEntityColor : Color) :
  (createDefinitions status classInfos defaultEntityColor).1
  = (filterRedundantClasses status classInfos).1
    ++ concat ((fun c =>
                  (resolveInheritanceOf (filterRedundantClasses status classInfos).2 [] c).1)
               <$> filter (fun c => ci_type c ≠ BaseClass)
                     (filterRedundantClasses status classInfos).2).
Proof.
  rewrite createDefinitions_spec. cbn [fst]. unfold resolveInheritance.
  destruct (filterRedundantClasses status classInfos) as [status1 filtered]. cbn [fst snd].
  rewrite (mapWithStatus_independent (resolveInheritanceOf filtered)); [done|].
  intros. apply resolveInheritanceOf_prepend.
Qed.


(** ** Model and decal definitions through the resolution *)

(** The expressions appended one after the other from the first one on, and
    nothing when there is none. *)
Definition appendAll {E : Type} `{!Expression E} (own : option E) (inherited : list E)
    : option E :=
  match option_list own ++ inherited with
  | [] => None
  | first :: others => Some (foldl append first others)
  end.

(** The model and the decal definition of the second class are those of the
    first, if any, with those of the merged classes appended in order. *)
Definition collects (c c' : EntityDefinitionClassInfo) (merged : list EntityDefinitionClassInfo)
    : Prop :=
  ci_modelDefinition c' = appendAll (ci_modelDefinition c) (omap ci_modelDefinition merged)
  ∧ ci_decalDefinition c' = appendAll (ci_decalDefinition c) (omap ci_decalDefinition merged).

Lemma appendAll_nil {E : Type} `{!Expression E} (own : option E) : appendAll own [] = own.
Proof. by destruct own. Qed.

Lemma appendAll_app {E : Type} `{!Expression E} (own : option E) (l1 l2 : list E) :
  appendAll (appendAll own l1) l2 = appendAll own (l1 ++ l2).
Proof.
  unfold appendAll. destruct own as [e|]; cbn.
  - by rewrite foldl_app.
  - destruct l1 as [|m l1]; cbn; [done|]. by rewrite foldl_app.
Qed.

Lemma inheritExpression_appendAll {E : Type} `{!Expression E} (own super : option E) :
  inheritExpression own super = appendAll own (option_list super).
Proof. by destruct own, super. Qed.

Lemma collects_refl c : collects c c [].
Proof. split; cbn; by rewrite appendAll_nil. Qed.

Lemma collects_trans c1 c2 c3 merged1 merged2 :
  collects c1 c2 merged1 → collects c2 c3 merged2 → collects c1 c3 (merged1 ++ merged2).
Proof.
  intros [Hm1 Hd1] [Hm2 Hd2]. split.
  - by rewrite omap_app, <- appendAll_app, <- Hm1.
  - by rewrite omap_app, <- appendAll_app, <- Hd1.
Qed.

Lemma collects_inheritAttributes c superClass :
  collects c (inheritAttributes c superClass) [superClass].
Proof.
  split; cbn [inheritAttributes ci_modelDefinition ci_decalDefinition omap list_omap].
  - rewrite inheritExpression_appendAll. by destruct (ci_modelDefinition superClass).
  - rewrite inheritExpression_appendAll. by destruct (ci_decalDefinition superClass).
Qed.

(** The classes that a walk merges: they are classes of the filtered vector,
    the model and decal definitions are collected from them in the order of
    the merges, and the class at the end of every path on which no name is met
    twice is one of them. *)
Lemma walk_collects filteredClassInfos inheritingClass fuel :
  ∀ st start st',
    findSuperClassesAndInheritFrom fuel filteredClassInfos st start = Some st' →
    ci_type (rs_inheritingClass st) = ci_type inheritingClass →
    ∃ merged,
      Forall (fun s => s ∈ filteredClassInfos) merged
      ∧ collects (rs_inheritingClass st) (rs_inheritingClass st') merged
      ∧ ∀ path,
          path ≠ [] →
          selectedPath filteredClassInfos inheritingClass start path →
          NoDup (ci_name <$> path) →
          Forall (fun s => ci_name s ∉ rs_visited st) path →
          pathEnd start path ∈ merged.
Proof.
  induction fuel as [|fuel IH]; [done|]. intros st start st' Hwalk Htype.
  cbn [findSuperClassesAndInheritFrom] in Hwalk.
  assert (∀ names st st',
            forEach
              (inheritFromName (findSuperClassesAndInheritFrom fuel filteredClassInfos)
                 filteredClassInfos start) st names = Some st' →
            ci_type (rs_inheritingClass st) = ci_type inheritingClass →
            ∃ merged,
              Forall (fun s => s ∈ filteredClassInfos) merged
              ∧ collects (rs_inheritingClass st) (rs_inheritingClass st') merged
              ∧ ∀ name superClass rest,
                  name ∈ names →
                  selectSuperClass inheritingClass (findClassInfos filteredClassInfos name)
                  = Some superClass →
                  selectedPath filteredClassInfos inheritingClass superClass rest →
                  NoDup (ci_name <$> superClass :: rest) →
                  Forall (fun s => ci_name s ∉ rs_visited st) (superClass :: rest) →
                  pathEnd superClass rest ∈ merged) as Hloop.
  { clear st st' Hwalk Htype. induction names as [|n names IHnames]; intros st st' Hloop Htype.
    { injection Hloop as <-. exists []. split_and!; [done|apply collects_refl|].
      intros ? ? ? Hin. by apply elem_of_nil in Hin. }
    apply forEach_cons_Some in Hloop as (st1 & Hbody & Hloop).
    pose proof (inheritFromName_walkFrame _ _ _ _ _ _
                  (findSuperClassesAndInheritFrom_walkFrame filteredClassInfos fuel) Hbody)
      as (Hv & Ht & _ & _).
    destruct (IHnames st1 st' Hloop) as (merged2 & Hin2 & Hcol2 & Hend2); [congruence|].
    assert (∃ merged1,
              Forall (fun s => s ∈ filteredClassInfos) merged1
              ∧ collects (rs_inheritingClass st) (rs_inheritingClass st1) merged1
              ∧ ∀ superClass rest,
                  selectSuperClass inheritingClass (findClassInfos filteredClassInfos n)
                  = Some superClass →
                  selectedPath filteredClassInfos inheritingClass superClass rest →
                  NoDup (ci_name <$> superClass :: rest) →
                  Forall (fun s => ci_name s ∉ rs_visited st) (superClass :: rest) →
                  pathEnd superClass rest ∈ merged1) as (merged1 & Hin1 & Hcol1 & Hend1).
    { unfold inheritFromName in Hbody.
      rewrite (selectSuperClass_type _ inheritingClass) in Hbody by done.
      destruct (selectSuperClass inheritingClass _) as [next|] eqn:Hsel.
      - unfold inheritFromAndRecurse in Hbody. case_bool_decide as Hfresh.
        + destruct (findSuperClassesAndInheritFrom fuel _ _ next) as [st3|] eqn:Hst3; [|done].
          injection Hbody as <-.
          destruct (IH _ _ _ Hst3) as (merged & Hin & Hcol & Hend); [by cbn|].
          exists (next :: merged). split_and!.
          * constructor; [|done].
            by apply selectSuperClass_elem, findClassInfos_elem in Hsel as [_ ?].
          * apply (collects_trans _ (inheritAttributes (rs_inheritingClass st) next) _
                     [next] merged); [apply collects_inheritAttributes|exact Hcol].
          * intros superClass rest [= <-] Hpath Hnodup Hnew.
            destruct rest as [|r rest]; [by left|]. right.
            rewrite fmap_cons in Hnodup. apply NoDup_cons in Hnodup as [Hnotin Hnodup].
            apply Forall_cons in Hnew as [_ Hnew]. apply Hend; [done|done|done|].
            cbn [rs_visited]. apply Forall_forall. intros x Hx.
            rewrite Forall_forall in Hnew. specialize (Hnew x Hx).
            assert (ci_name x ≠ ci_name next).
            { intros Heq. apply Hnotin. rewrite <- Heq. by apply list_elem_of_fmap_2. }
            set_solver.
        + injection Hbody as <-. exists []. split_and!; [done|apply collects_refl|].
          intros superClass rest [= <-] _ _ [Hnew _]%Forall_cons. by destruct Hnew.
      - injection Hbody as <-. exists []. split_and!; [done|apply collects_refl|]. done. }
    exists (merged1 ++ merged2). split_and!.
    - by apply Forall_app.
    - by eapply collects_trans.
    - intros name superClass rest [->|Hin]%elem_of_cons Hsel Hpath Hnodup Hnew.
      + apply elem_of_app. left. by apply Hend1.
      + apply elem_of_app. right. apply (Hend2 name); [done..|]. by rewrite Hv. }
  destruct (Hloop _ _ _ Hwalk Htype) as (merged & Hin & Hcol & Hend).
  exists merged. split_and!; [done..|].
  intros [|s rest] Hne Hpath Hnodup Hnew; [done|].
  destruct Hpath as [(name & Hname & Hsel) Hpath].
  rewrite pathEnd_cons. by apply (Hend name).
Qed.

(** X21. The model definition of a resolved class is the one of the class, if
    it has one, with the model definitions of the classes merged on the walk
    appended to it in the order of the merges, and likewise for the decal
    definition: what the class or an earlier super class brought is appended
    to and never replaced. The merged classes are classes of the filtered
    vector, and every class at the end of a path of selected super classes on
    which no name is met twice is among them. *)
Theorem model_definitions_are_collected filteredClassInfos status c :
  let resolved := (resolveInheritanceOf filteredClassInfos status c).2 in
  ∃ merged,
    Forall (fun s => s ∈ filteredClassInfos) merged
    ∧ ci_modelDefinition resolved
      = appendAll (ci_modelDefinition c) (omap ci_modelDefinition merged)
    ∧ ci_decalDefinition resolved
      = appendAll (ci_decalDefinition c) (omap ci_decalDefinition merged)
    ∧ ∀ path superClass,
        selectedPath filteredClassInfos c c (path ++ [superClass]) →
        NoDup (ci_name <$> path ++ [superClass]) →
        superClass ∈ merged.
Proof.
  intros resolved. subst resolved.
  destruct (resolveInheritanceOf_fuel filteredClassInfos status c) as (st & Hst & ->).
  destruct (walk_collects _ c _ _ _ _ Hst eq_refl) as (merged & Hin & [Hm Hd] & Hend).
  exists merged. split_and!; [done..|].
  intros path superClass Hpath Hnodup.
  specialize (Hend (path ++ [superClass])). unfold pathEnd in Hend. rewrite last_snoc in Hend.
  apply Hend; [by destruct path|done|done|]. apply Forall_forall. set_solver.
Qed.

End Resolver.

(** * Property definitions (mdl/PropertyDefinition.h, mdl/PropertyDefinition.cpp)

    The value types of a property definition, the lookup of a flag, the test
    for a default flag, the default value of a definition as a string, and the
    parsing of the optional values of a color. The structs of the namespace
    [PropertyValueTypes] with one member are the constructors of
    [PropertyValueType]; an [int] is an integer, and [float] is a type that is
    only printed and parsed. *)

Module mdl.

(** [enum class ColorValueType] *)
Module ColorValueType.
Inductive t : Set := Any | Float | Byte.
End ColorValueType.

(** [enum class ColorComponentType] *)
Module ColorComponentType.
Inductive t : Set := Red | Green | Blue | Alpha | LightBrightness | Other.
End ColorComponentType.

Record ChoiceOption : Set := mkChoiceOption {
  option_value : string;
  option_description : string
}.

Record Choice : Set := mkChoice {
  choice_options : list ChoiceOption;
  choice_defaultValue : option string
}.

Record Flag : Set := mkFlag {
  value : Z;
  shortDescription : string;
  longDescription : string
}.

Record Flags : Set := mkFlags {
  flags : list Flag;
  flags_defaultValue : Z
}.

(** [Flags::flag]: [None] is the null pointer. *)
Definition flag (self : Flags) (flagValue : Z) : option Flag :=
  snd <$> list_find (fun flag => value flag = flagValue) (flags self).

(** [Flags::isDefault] *)
Definition isDefault (self : Flags) (flagValue : Z) : bool :=
  bool_decide (Z.land (flags_defaultValue self) flagValue ≠ 0%Z).

(** The strings of a list one after the other. *)
Definition joined (l : list string) : string := foldr String.append "" l.

Section WithFloat.

Context {float : Type}.

(** [std::to_string(float)], [kdl::str_split] and [kdl::str_to_float] *)
Variable to_string : float → string.
Variable str_split : string → string → list string.
Variable str_to_float : string → option float.

Record ColorComponent : Type := mkColorComponent {
  component_valueType : ColorValueType.t;
  component_componentType : ColorComponentType.t;
  component_defaultValue : option float
}.

(** [std::variant<TargetSource, ..., Unknown>] *)
Inductive PropertyValueType : Type :=
| TargetSourceValue
| TargetDestinationValue
| StringValue (defaultValue : option string)
| BooleanValue (defaultValue : option bool)
| IntegerValue (defaultValue : option Z)
| FloatValue (defaultValue : option float)
| ChoiceValue (choice : Choice)
| FlagsValue (flags : Flags)
| ColorPropertyValue (components : list ColorComponent)
| UnknownValue (defaultValue : option string).

Record PropertyDefinition : Type := mkDefinition {
  key : string;
  valueType : PropertyValueType;
  definition_shortDescription : string;
  definition_longDescription : string;
  readOnly : bool
}.

(** [parseColorPropertyValueOptionalValues]; [resize] to a greater size adds
    the given value at the end. *)
Definition parseColorPropertyValueOptionalValues (value : string) (minimumNumValues : nat)
    : list (option float) :=
  let parsedValues := str_to_float <$> str_split value " " in
  if bool_decide (length parsedValues < minimumNumValues)
  then parsedValues ++ replicate (minimumNumValues - length parsedValues) None
  else parsedValues.

(** The loop over the components of a color, which ends at the first
    component without a default value. *)
Fixpoint colorDefaultLoop (defaultValue : string) (components : list ColorComponent) : string :=
  match components with
  | [] => defaultValue
  | component :: rest =>
      match component_defaultValue component with
      | None => defaultValue
      | Some val =>
          let defaultValue :=
            if bool_decide (defaultValue = "") then defaultValue +:+ " " else defaultValue in
          colorDefaultLoop (defaultValue +:+ to_string val) rest
      end
  end.

(** [PropertyDefinition::defaultValue] *)
Definition defaultValue (definition : PropertyDefinition) : option string :=
  match valueType definition with
  | TargetSourceValue => None
  | TargetDestinationValue => None
  | StringValue d => d
  | BooleanValue d => (fun b : bool => if b then "true" else "false") <$> d
  | IntegerValue d => (fun i : Z => pretty i) <$> d
  | FloatValue d => to_string <$> d
  | ChoiceValue c => choice_defaultValue c
  | FlagsValue f =>
      if bool_decide (flags_defaultValue f ≠ 0%Z) then Some (pretty (flags_defaultValue f))
      else None
  | ColorPropertyValue components =>
      if bool_decide (components = []) then None
      else
        let defaultValue := colorDefaultLoop "" components in
        if bool_decide (defaultValue = "") then None else Some defaultValue
  | UnknownValue d => d
  end.

(** The default values of the components up to the first one without. *)
Fixpoint leadingDefaults (components : list ColorComponent) : list float :=
  match components with
  | [] => []
  | component :: rest =>
      match component_defaultValue component with
      | Some val => val :: leadingDefaults rest
      | None => []
      end
  end.

(** ** Properties *)

Lemma append_cons x (a b : string) : String x a +:+ b = String x (a +:+ b).
Proof. done. Qed.

Lemma append_assoc (a b c : string) : (a +:+ b) +:+ c = a +:+ b +:+ c.
Proof. induction a as [|x a IH]; [done|]. by rewrite !append_cons, IH. Qed.

Lemma append_nil_r (a : string) : a +:+ "" = a.
Proof. induction a as [|x a IH]; [done|]. by rewrite append_cons, IH. Qed.

Lemma append_nonempty (a b : string) : a ≠ "" → a +:+ b ≠ "".
Proof. destruct a; [done|]. by rewrite append_cons. Qed.

Lemma colorDefaultLoop_started defaultValue components :
  defaultValue ≠ "" →
  colorDefaultLoop defaultValue components
  = defaultValue +:+ joined (to_string <$> leadingDefaults components).
Proof.
  revert defaultValue. induction components as [|c components IH]; intros acc Hacc.
  { cbn. by rewrite append_nil_r. }
  cbn [colorDefaultLoop leadingDefaults].
  destruct (component_defaultValue c) as [val|].
  - rewrite bool_decide_eq_false_2 by done. rewrite IH by (by apply append_nonempty).
    rewrite fmap_cons. cbn [joined foldr]. by rewrite append_assoc.
  - cbn. by rewrite append_nil_r.
Qed.

Lemma colorDefaultLoop_spec components :
  colorDefaultLoop "" components
  = match leadingDefaults components with
    | [] => ""
    | _ :: _ => " " +:+ joined (to_string <$> leadingDefaults components)
    end.
Proof.
  destruct components as [|c components]; [done|].
  cbn [colorDefaultLoop leadingDefaults].
  destruct (component_defaultValue c) as [val|]; [|done].
  rewrite bool_decide_eq_true_2 by done. rewrite colorDefaultLoop_started by done.
  rewrite fmap_cons. cbn [joined foldr]. by rewrite append_assoc.
Qed.

Lemma Z_nonzero_bit (a : Z) : a ≠ 0%Z ↔ ∃ n, (0 ≤ n)%Z ∧ Z.testbit a n = true.
Proof.
  split.
  - intros Ha. destruct (Z.lt_trichotomy a 0) as [Hneg|[?|Hpos]]; [|done|].
    + exists (Z.succ (Z.log2 (Z.pred (- a)))). split.
      * pose proof (Z.log2_nonneg (Z.pred (- a))). lia.
      * apply Z.bits_above_log2_neg; lia.
    + exists (Z.log2 a). split; [apply Z.log2_nonneg|by apply Z.bit_log2].
  - intros (n & _ & Hn) ->. by rewrite Z.bits_0 in Hn.
Qed.

(** X16. The lookup of a flag returns the first flag of the list with the
    given value, and none exactly when no flag has that value. *)
Theorem flag_finds_the_first (self : Flags) (flagValue : Z) :
  (flag self flagValue = None ↔ Forall (fun f => value f ≠ flagValue) (flags self))
  ∧ (∀ f, flag self flagValue = Some f ↔
       ∃ i, flags self !! i = Some f ∧ value f = flagValue
            ∧ ∀ j g, flags self !! j = Some g → j < i → value g ≠ flagValue).
Proof.
  unfold flag. split.
  - rewrite fmap_None. apply list_find_None.
  - intros f. split.
    + destruct (list_find _ _) as [[i x]|] eqn:Hfind; [|done]. intros [= <-].
      apply list_find_Some in Hfind. by exists i.
    + intros (i & Hfind).
      apply (list_find_Some (fun f => value f = flagValue)) in Hfind. by rewrite Hfind.
Qed.

(** X17. A flag value is a default exactly when it shares a bit with the
    default value of the flags; so for the value of a single bit the test reads
    that bit, and the value 0 is never a default. *)
Theorem isDefault_tests_common_bits (self : Flags) (flagValue : Z) :
  (isDefault self flagValue = true ↔
   ∃ n, (0 ≤ n)%Z ∧ Z.testbit (flags_defaultValue self) n = true
        ∧ Z.testbit flagValue n = true)
  ∧ (∀ i, (0 ≤ i)%Z →
       isDefault self (Z.shiftl 1 i) = Z.testbit (flags_defaultValue self) i)
  ∧ isDefault self 0 = false.
Proof.
  assert (∀ v, isDefault self v = true ↔
               ∃ n, (0 ≤ n)%Z ∧ Z.testbit (flags_defaultValue self) n = true
                    ∧ Z.testbit v n = true) as Hbits.
  { intros v. unfold isDefault. rewrite bool_decide_eq_true, Z_nonzero_bit.
    split; intros (n & Hn & Hb); exists n; (split; [done|]).
    - rewrite Z.land_spec in Hb. by apply andb_true_iff in Hb.
    - rewrite Z.land_spec. by apply andb_true_iff. }
  split_and!; [apply Hbits| |].
  - intros i Hi. apply eq_true_iff_eq. rewrite Hbits, Z.shiftl_1_l. split.
    + intros (n & Hn & Hd & Hv). rewrite Z.pow2_bits_eqb in Hv by done.
      apply Z.eqb_eq in Hv. by subst.
    + intros Hd. exists i. split_and!; [done|done|].
      rewrite Z.pow2_bits_eqb by done. apply Z.eqb_refl.
  - unfold isDefault. by rewrite Z.land_0_r.
Qed.

(** X18. A definition has no default value as a string exactly when it is a
    target, when its value type holds no default, when it is a flags
    definition whose default is 0, or when it is a color without components
    or whose first component has no default. *)
Theorem defaultValue_is_absent (definition : PropertyDefinition) :
  defaultValue definition = None ↔
  match valueType definition with
  | TargetSourceValue | TargetDestinationValue => True
  | StringValue d | UnknownValue d => d = None
  | BooleanValue d => d = None
  | IntegerValue d => d = None
  | FloatValue d => d = None
  | ChoiceValue c => choice_defaultValue c = None
  | FlagsValue f => flags_defaultValue f = 0%Z
  | ColorPropertyValue components =>
      match components with
      | [] => True
      | component :: _ => component_defaultValue component = None
      end
  end.
Proof.
  unfold defaultValue. destruct (valueType definition) as [| |d|d|d|d|c|f|components|d];
    try done; try (by rewrite fmap_None).
  - case_bool_decide as Hf; [|by split; [|]; auto with lia].
    split; [done|]. by intros ?.
  - destruct components as [|c components]; [done|].
    rewrite bool_decide_eq_false_2 by done. rewrite colorDefaultLoop_spec.
    cbn [leadingDefaults]. destruct (component_defaultValue c); [|done].
    by rewrite bool_decide_eq_false_2 by done.
Qed.

(** X19. The default value of a color is built from the defaults of its
    components up to the first component without one; the later components
    are not looked at. The string is one space followed by the printed values
    one after the other, with nothing between them. *)
Theorem color_defaultValue_is_joined (definition : PropertyDefinition)
    (components : list ColorComponent) :
  valueType definition = ColorPropertyValue components →
  defaultValue definition
  = match leadingDefaults components with
    | [] => None
    | _ :: _ => Some (" " +:+ joined (to_string <$> leadingDefaults components))
    end.
Proof.
  intros Hcolor. unfold defaultValue. rewrite Hcolor.
  destruct components as [|c components]; [done|].
  rewrite bool_decide_eq_false_2 by done. rewrite colorDefaultLoop_spec.
  destruct (leadingDefaults (c :: components)); [done|].
  by rewrite bool_decide_eq_false_2 by done.
Qed.

(** X20. The optional values parsed for a color are the parts of the string
    in their order, never fewer than the minimum: missing ones are added at
    the end as absent values, and parts beyond the minimum are kept. *)
Theorem parsed_color_values_are_padded (value : string) (minimumNumValues : nat) :
  let parsedValues := str_to_float <$> str_split value " " in
  let result := parseColorPropertyValueOptionalValues value minimumNumValues in
  length result = length parsedValues `max` minimumNumValues
  ∧ take (length parsedValues) result = parsedValues
  ∧ (∀ i, length parsedValues ≤ i < minimumNumValues → result !! i = Some None)
  ∧ (minimumNumValues ≤ length parsedValues → result = parsedValues).
Proof.
  intros parsedValues result. subst result. unfold parseColorPropertyValueOptionalValues.
  fold parsedValues. case_bool_decide as Hlt.
  - split_and!.
    + rewrite length_app, length_replicate. lia.
    + by rewrite take_app_length.
    + intros i Hi. rewrite lookup_app_r by lia. apply lookup_replicate_2. lia.
    + lia.
  - split_and!; [lia|by rewrite firstn_all|lia|done].
Qed.

End WithFloat.

End mdl.

(** ** Concrete class lists

    Colours are numbers, source positions are line numbers, and a model or
    decal definition is the list of its alternatives. *)

#[global] Instance alternatives_Expression : Expression (list string) :=
  {| append := app; emptyExpression := [] |}.

Definition SampleClassInfo : Type :=
  @EntityDefinitionClassInfo Z nat (list string) (list string).

Definition sampleClass (type : EntityDefinitionClassType) (line : nat) (name : string)
    (description : option string) (color : option Z) (size : option bbox3d)
    (superClasses : list string) : SampleClassInfo :=
  mkClassInfo type line name description color size None None [] superClasses.

(** A chain: X inherits from Y, which inherits from Z. *)
Definition chainX : SampleClassInfo := sampleClass PointClass 1 "X" None None None ["Y"].
Definition chainY : SampleClassInfo :=
  sampleClass BaseClass 2 "Y" (Some "from Y") None None ["Z"].
Definition chainZ : SampleClassInfo :=
  sampleClass BaseClass 3 "Z" (Some "from Z") (Some 3%Z) (Some (bbox3d_of (-16) 16)) [].

(** X declares another super class before Y. *)
Definition firstW : SampleClassInfo :=
  sampleClass BaseClass 4 "W" (Some "from W") None None [].
Definition chainXW : SampleClassInfo :=
  sampleClass PointClass 1 "X" None None None ["W"; "Y"].
Definition precedenceClasses : list SampleClassInfo := [chainXW; firstW; chainY; chainZ].

(** A cycle: A inherits from B, which inherits from A. *)
Definition cycleA : SampleClassInfo :=
  mkClassInfo PointClass 1 "A" None None None (Some ["a.mdl"]) None [] ["B"].
Definition cycleB : SampleClassInfo :=
  sampleClass PointClass 2 "B" (Some "from B") None None ["A"].

(** The spawnflags of the example of the specification: the inheriting class
    defines bit 1, the super class defines bits 1 and 2 and a property that
    the inheriting class lacks. *)
Definition ownFlags : PropertyDefinition :=
  mkPropertyDefinition "spawnflags" FlagsProperty "" "" false
    [mkFlagsPropertyOption 1 "Option A" "" false].
Definition superFlags : PropertyDefinition :=
  mkPropertyDefinition "spawnflags" FlagsProperty "" "" false
    [mkFlagsPropertyOption 1 "Old A" "" true; mkFlagsPropertyOption 2 "Option B" "" false].
Definition ownTarget : PropertyDefinition :=
  mkPropertyDefinition "target" TargetDestinationProperty "own" "" false [].
Definition superTarget : PropertyDefinition :=
  mkPropertyDefinition "target" StringProperty "super" "" false [].
Definition superHealth : PropertyDefinition :=
  mkPropertyDefinition "health" IntegerProperty "health" "" false [].

Definition flagsOwner : SampleClassInfo :=
  mkClassInfo PointClass 1 "monster" None None None None None [ownFlags; ownTarget] ["base"].
Definition flagsSuper : SampleClassInfo :=
  mkClassInfo BaseClass 2 "base" None None None None None
    [superHealth; superFlags; superTarget] [].

(** A brush class with a size, a model and a decal, and one with nothing set. *)
Definition sizedBrush : SampleClassInfo :=
  mkClassInfo BrushClass 4 "door" (Some "a door") (Some 5%Z) (Some (bbox3d_of (-4) 4))
    (Some ["door.mdl"]) (Some ["door.png"]) [superHealth] [].
Definition bareBrush : SampleClassInfo := sampleClass BrushClass 5 "trigger" None None None [].

(** Classes that share the name of a declared super class. *)
Definition monsterPoint : SampleClassInfo :=
  sampleClass PointClass 10 "monster" (Some "point") None None [].
Definition monsterBrush : SampleClassInfo :=
  sampleClass BrushClass 11 "monster" (Some "brush") None None [].
Definition monsterBase : SampleClassInfo :=
  sampleClass BaseClass 12 "monster" (Some "base") None None [].
Definition ogre : SampleClassInfo := sampleClass PointClass 13 "ogre" None None None ["monster"].

(** A parsed file with a duplicate, a redundant base class, an overloaded
    name, a missing super class and a base class that is inherited from. *)
Definition parsedClasses : list SampleClassInfo :=
  [sampleClass BaseClass 1 "base" (Some "base") (Some 9%Z) None [];
   sampleClass PointClass 2 "light" None None None ["base"; "missing"];
   sampleClass BrushClass 3 "light" None None None ["base"];
   sampleClass PointClass 4 "light" (Some "again") None None [];
   sampleClass BaseClass 5 "light" None None None []].

(** Parsers: one that returns the parsed file, one that returns the cycle, one
    that throws an [Exception], and one that throws an exception of the
    standard library. *)
Definition SampleParseOutcome : Type :=
  @ParseOutcome Z nat (list string) (list string) string.

Definition parsesFile (status : list (Diagnostic nat))
    : list (Diagnostic nat) * SampleParseOutcome :=
  (status, Parsed parsedClasses).
Definition parsesCycle (status : list (Diagnostic nat))
    : list (Diagnostic nat) * SampleParseOutcome :=
  (status, Parsed [cycleA; cycleB]).
Definition throwsAtOnce (status : list (Diagnostic nat))
    : list (Diagnostic nat) * SampleParseOutcome :=
  (status ++ [Warn 1 "unexpected token"], Thrown "Parse error at line 1").
Definition throwsBadAlloc (status : list (Diagnostic nat))
    : list (Diagnostic nat) * SampleParseOutcome :=
  (status, ThrownOther "std::bad_alloc").

(** ** The claims on the concrete class lists *)

Lemma closer_super_class_witness :
  ci_description (resolveInheritanceOf [chainX; chainY; chainZ] [] chainX).2 = Some "from Y"
  ∧ ci_color (resolveInheritanceOf [chainX; chainY; chainZ] [] chainX).2 = Some 3%Z
  ∧ ci_size (resolveInheritanceOf [chainX; chainY; chainZ] [] chainX).2
    = Some (bbox3d_of (-16) 16).
Proof.
  destruct (closer_super_class_takes_precedence [chainX; chainY; chainZ] [] chainX chainY
              chainZ [] []) as (Hd & Hc & Hs & _);
    [reflexivity|reflexivity|reflexivity|reflexivity|discriminate
    |reflexivity|reflexivity|reflexivity|].
  split; [apply Hd; reflexivity|]. split; [apply Hc; reflexivity|apply Hs; reflexivity].
Defined.

(** C1 as it is written fails when Y is not the first super class that X
    declares: here X declares W and then Y, Y declares Z, each name has one
    candidate, nothing is reported and X has nothing of its own, and yet the
    description of the resolved X is the one of W, not the one that Y sets. *)
Lemma earlier_super_class_takes_precedence :
  filterRedundantClasses [] precedenceClasses = ([], precedenceClasses)
  ∧ ci_name chainY ∈ ci_superClasses chainXW
  ∧ ci_name chainZ ∈ ci_superClasses chainY
  ∧ findClassInfos precedenceClasses (ci_name chainY) = [chainY]
  ∧ findClassInfos precedenceClasses (ci_name chainZ) = [chainZ]
  ∧ ci_description chainXW = None ∧ ci_color chainXW = None ∧ ci_size chainXW = None
  ∧ (resolveInheritanceOf precedenceClasses [] chainXW).1 = []
  ∧ ci_description chainY = Some "from Y"
  ∧ ci_description (resolveInheritanceOf precedenceClasses [] chainXW).2 = Some "from W"
  ∧ ci_description (resolveInheritanceOf precedenceClasses [] chainXW).2
    ≠ inheritOptional (ci_description chainY) (ci_description chainZ).
Proof.
  split_and!; try reflexivity; try discriminate.
  - apply (bool_decide_unpack _). vm_compute. exact I.
  - apply (bool_decide_unpack _). vm_compute. exact I.
Qed.


Lemma properties_merge_witness :
  ci_propertyDefinitions (inheritAttributes flagsOwner flagsSuper)
  = [mkPropertyDefinition "spawnflags" FlagsProperty "" "" false
       [mkFlagsPropertyOption 1 "Option A" "" false; mkFlagsPropertyOption 2 "Option B" "" false];
     ownTarget; superHealth].
Proof.
  destruct (properties_are_merged_by_key flagsOwner flagsSuper) as (Hprops & _).
  - apply (bool_decide_unpack _). vm_compute. exact I.
  - apply (bool_decide_unpack _). vm_compute. exact I.
  - rewrite Hprops. reflexivity.
Defined.

Lemma brush_definition_witness :
  createDefinition sizedBrush 7%Z = Some (BrushEntityDefinition "door" 5%Z "a door" [superHealth])
  ∧ createDefinition (withGeometry sizedBrush None None None) 7%Z
    = createDefinition sizedBrush 7%Z.
Proof.
  destruct (brush_definition_drops_geometry sizedBrush 7%Z) as [Hdef Hsame]; [reflexivity|].
  split; [exact Hdef|apply Hsame].
Defined.

(** C7 as it is written fails on a brush class: the definition made from a
    brush class without color, size and description holds the default color and
    the empty description, and no box. *)
Lemma brush_definition_has_no_box :
  ci_type bareBrush ≠ BaseClass
  ∧ ci_color bareBrush = None ∧ ci_size bareBrush = None ∧ ci_description bareBrush = None
  ∧ createDefinition bareBrush 7%Z = Some (BrushEntityDefinition "trigger" 7%Z "" [])
  ∧ ¬ ∃ d, createDefinition bareBrush 7%Z = Some d
           ∧ definitionColor d = 7%Z
           ∧ definitionSize d = Some (bbox3d_of (-8) 8)
           ∧ definitionDescription d = "".
Proof.
  split_and!; try done. intros (d & Hd & _ & Hsize & _).
  injection Hd as <-. discriminate Hsize.
Qed.

Lemma selector_policy_witness :
  selectSuperClass ogre [monsterBase] = Some monsterBase
  ∧ selectSuperClass ogre [monsterBase; monsterBrush; monsterPoint] = Some monsterPoint
  ∧ selectSuperClass ogre [monsterBrush; monsterBase] = Some monsterBase
  ∧ selectSuperClass ogre [] = None
  ∧ selectSuperClass monsterBase [monsterBrush; monsterPoint] = None.
Proof.
  destruct (selector_policy ogre [monsterBase]) as (Hone & _).
  destruct (selector_policy ogre [monsterBase; monsterBrush; monsterPoint])
    as (_ & Hsame & _).
  destruct (selector_policy ogre [monsterBrush; monsterBase]) as (_ & _ & Hbase & _).
  destruct (selector_policy ogre []) as (_ & _ & _ & Hnone).
  split_and!.
  - by apply Hone.
  - destruct Hsame as (c & Hc & _); [cbn; lia|exists monsterPoint; split; [repeat constructor|reflexivity]|].
    rewrite Hc. vm_compute in Hc. by injection Hc as <-.
  - destruct Hbase as (c & Hc & _);
      [cbn; lia|by repeat constructor|done
      |exists monsterBase; split; [repeat constructor|reflexivity]|].
    rewrite Hc. vm_compute in Hc. by injection Hc as <-.
  - apply Hnone. by left.
  - done.
Defined.

Lemma filter_description_witness :
  filterRedundantClasses [] parsedClasses
  = ([Warn 4 "Duplicate class info 'light'"; Warn 5 "Redundant class info 'light'"],
     [sampleClass BaseClass 1 "base" (Some "base") (Some 9%Z) None [];
      sampleClass PointClass 2 "light" None None None ["base"; "missing"];
      sampleClass BrushClass 3 "light" None None None ["base"]]).
Proof.
  destruct (filter_follows_description [] parsedClasses) as [Hspec _].
  rewrite Hspec. reflexivity.
Defined.

Lemma filter_invariant_witness :
  filterRedundantClasses [] [monsterPoint; monsterBrush] = ([], [monsterPoint; monsterBrush]).
Proof.
  destruct (filter_output_invariant [] parsedClasses) as (_ & _ & Hpair).
  by apply Hpair.
Defined.

Lemma defaults_witness :
  createDefinition (sampleClass PointClass 6 "info_null" None None None []) 7%Z
  = Some (PointEntityDefinition "info_null" 7%Z (mkBBox (-8, -8, -8)%Z (8, 8, 8)%Z) "" [] [] [])
  ∧ (fun d => (definitionName d, definitionType d)) <$> (createDefinitions [] parsedClasses 7%Z).2
    = [("light", PointClass); ("light", BrushClass)].
Proof.
  destruct (base_classes_are_skipped_and_defaults_applied [] parsedClasses 7%Z)
    as (_ & Hkeys & _ & Hpoint & _).
  split; [by apply Hpoint|]. rewrite Hkeys. reflexivity.
Defined.

Lemma idempotent_witness :
  (resolveInheritance [] parsedClasses).2
  = [sampleClass PointClass 2 "light" (Some "base") (Some 9%Z) None ["base"; "missing"];
     sampleClass BrushClass 3 "light" (Some "base") (Some 9%Z) None ["base"]]
  ∧ resolveInheritance (resolveInheritance [] parsedClasses).1
      (clearSuperClasses <$> (resolveInheritance [] parsedClasses).2)
    = ((resolveInheritance [] parsedClasses).1,
       [sampleClass PointClass 2 "light" (Some "base") (Some 9%Z) None [];
        sampleClass BrushClass 3 "light" (Some "base") (Some 9%Z) None []]).
Proof.
  split; [reflexivity|]. rewrite (resolution_is_idempotent [] parsedClasses). reflexivity.
Defined.



(** ** Further class lists and property definitions *)

(** A diamond: X inherits from L and R, which both inherit from T. *)
Definition diamondX : SampleClassInfo :=
  sampleClass PointClass 1 "X" None None None ["L"; "R"].
Definition diamondL : SampleClassInfo := sampleClass BaseClass 2 "L" None None None ["T"].
Definition diamondR : SampleClassInfo :=
  sampleClass BaseClass 3 "R" (Some "from R") (Some 4%Z) None ["T"].
Definition diamondT : SampleClassInfo :=
  mkClassInfo BaseClass 4 "T" (Some "from T") None None (Some ["t.mdl"]) None [] [].

(** A class with a super class that does not exist, and one that names
    itself. *)
Definition orphan : SampleClassInfo :=
  sampleClass PointClass 1 "orphan" None None None ["nowhere"; "Z"].
Definition narcissus : SampleClassInfo :=
  mkClassInfo BrushClass 1 "self" (Some "me") None None None (Some ["me.png"]) [] ["self"].

(** A color whose third component has no default; the float type is the
    printed form of the number. *)
Definition colorComponents : list (@mdl.ColorComponent string) :=
  [mdl.mkColorComponent mdl.ColorValueType.Float mdl.ColorComponentType.Red (Some "1");
   mdl.mkColorComponent mdl.ColorValueType.Float mdl.ColorComponentType.Green (Some "0.5");
   mdl.mkColorComponent mdl.ColorValueType.Float mdl.ColorComponentType.Blue None;
   mdl.mkColorComponent mdl.ColorValueType.Any mdl.ColorComponentType.Alpha (Some "9")].

(** ** The further properties on the concrete inputs *)

Lemma filter_distinct_names_witness :
  filterRedundantClasses [] [chainX; chainY; chainZ] = ([], [chainX; chainY; chainZ]).
Proof.
  apply (filter_keeps_distinct_names [] [chainX; chainY; chainZ]).
  apply (bool_decide_unpack _). vm_compute. exact I.
Defined.

Lemma walk_returns_witness :
  ∃ st,
    findSuperClassesAndInheritFrom 10 [cycleA; cycleB] (mkResolveState [] cycleA ∅) cycleA
    = Some st
    ∧ rs_visited st = ∅
    ∧ resolveInheritanceOf [cycleA; cycleB] [] cycleA = (rs_status st, rs_inheritingClass st).
Proof.
  apply (walk_returns_on_every_hierarchy [cycleA; cycleB] [] cycleA 10).
  unfold resolveFuel. cbn [length]. lia.
Defined.

Lemma merged_flags_witness :
  let merged :=
    mkPropertyDefinition "spawnflags" FlagsProperty "" "" false
      [mkFlagsPropertyOption 1 "Option A" "" false; mkFlagsPropertyOption 2 "Option B" "" false] in
  mergeAttributes ownFlags superFlags = Some merged
  ∧ length (pd_options merged) ≤ 24
  ∧ StronglySorted Z.lt (flag_value <$> pd_options merged).
Proof.
  intros merged.
  destruct (merged_flags_are_single_bits ownFlags superFlags merged) as (_ & _ & Hl & Hs & _);
    [reflexivity|].
  split; [reflexivity|]. by split.
Defined.

Lemma diamond_witness :
  resolveInheritanceOf [diamondX; diamondL; diamondR; diamondT] [] diamondX
  = ([],
     mkClassInfo PointClass 1 "X" (Some "from T") (Some 4%Z) None (Some ["t.mdl"; "t.mdl"])
       None [] ["L"; "R"]).
Proof.
  rewrite (diamond_is_not_a_cycle [diamondX; diamondL; diamondR; diamondT] [] diamondX
             diamondL diamondR diamondT); [reflexivity|reflexivity..|discriminate
             |discriminate|discriminate].
Defined.


Lemma self_inheritance_witness :
  resolveInheritanceOf [narcissus] [] narcissus
  = ([Error 1 cycleMessage],
     mkClassInfo BrushClass 1 "self" (Some "me") None None None (Some ["me.png"; "me.png"]) []
       ["self"]).
Proof.
  rewrite (self_inheritance_is_reported_once [narcissus] [] narcissus); reflexivity.
Defined.

Lemma color_defaultValue_witness :
  mdl.defaultValue id
    (mdl.mkDefinition "_color" (mdl.ColorPropertyValue colorComponents) "" "" false)
  = Some " 10.5".
Proof.
  rewrite (mdl.color_defaultValue_is_joined id _ colorComponents); reflexivity.
Defined.

Lemma model_definitions_witness :
  (∃ merged,
     Forall (fun s => s ∈ [diamondX; diamondL; diamondR; diamondT]) merged
     ∧ ci_modelDefinition
         (resolveInheritanceOf [diamondX; diamondL; diamondR; diamondT] [] diamondX).2
       = appendAll None (omap ci_modelDefinition merged)
     ∧ diamondL ∈ merged ∧ diamondR ∈ merged ∧ diamondT ∈ merged)
  ∧ ci_modelDefinition
      (resolveInheritanceOf [diamondX; diamondL; diamondR; diamondT] [] diamondX).2
    = Some (["t.mdl"] ++ ["t.mdl"]).
Proof.
  split; [|reflexivity].
  destruct (model_definitions_are_collected [diamondX; diamondL; diamondR; diamondT] []
              diamondX) as (merged & Hin & Hmodel & _ & Hend).
  exists merged. split_and!; [exact Hin|exact Hmodel|..].
  - apply (Hend [] diamondL).
    + split; [exists "L"; split; [apply list_elem_of_here|reflexivity]|exact I].
    + apply (bool_decide_unpack _). vm_compute. exact I.
  - apply (Hend [] diamondR).
    + split; [|exact I]. exists "R".
      split; [apply list_elem_of_further, list_elem_of_here|reflexivity].
    + apply (bool_decide_unpack _). vm_compute. exact I.
  - apply (Hend [diamondL] diamondT).
    + split; [exists "L"; split; [apply list_elem_of_here|reflexivity]|].
      split; [exists "T"; split; [apply list_elem_of_here|reflexivity]|exact I].
    + apply (bool_decide_unpack _). vm_compute. exact I.
Defined.
